(** * Dead code elimination over MIL blocks

    A shallow embedding of
    [coremltools/converters/mil/mil/passes/defs/cleanup/dead_code_elimination.py]
    (the [dead_code_elimination] graph pass) and the properties of its
    backward liveness sweep. *)

From stdpp Require Import base list strings gmap sets.

Open Scope string_scope.
Open Scope list_scope.

(** ** The intermediate representation *)

(** A [Var] object; the pass only ever hashes and compares variables, so a
    variable is represented by its (SSA) name. *)
Definition Var := string.

(** A value of the [op.inputs] dictionary: one [Var], or a tuple/list of
    them ([isinstance(input_var, (tuple, list))]). *)
Inductive InputRef :=
  | Single (v : Var)
  | Multi (vs : list Var).

(** [Operation] and [Block].  A block owns its operations, an operation owns
    its nested blocks ([op.blocks]), so the ownership structure is a tree. *)
Inductive Operation :=
  | Op (name op_type : string) (inputs : list (string * InputRef))
       (outputs : list Var) (blocks : list Block)
with Block :=
  | Blk (operations : list Operation) (block_outputs : list Var).

Definition name (op : Operation) : string :=
  match op with Op n _ _ _ _ => n end.
Definition op_type (op : Operation) : string :=
  match op with Op _ t _ _ _ => t end.
Definition inputs (op : Operation) : list (string * InputRef) :=
  match op with Op _ _ i _ _ => i end.
Definition outputs (op : Operation) : list Var :=
  match op with Op _ _ _ o _ => o end.
Definition blocks (op : Operation) : list Block :=
  match op with Op _ _ _ _ bs => bs end.
Definition operations (b : Block) : list Operation :=
  match b with Blk ops _ => ops end.
Definition block_outputs (b : Block) : list Var :=
  match b with Blk _ outs => outs end.

(** In-place mutation of [op.blocks] is rendered by rebuilding the operation
    around the processed nested blocks. *)
Definition with_blocks (op : Operation) (bs : list Block) : Operation :=
  Op (name op) (op_type op) (inputs op) (outputs op) bs.

(** A program: [prog.functions], a dictionary from function name to the
    function's block, in insertion order. *)
Definition Program := list (string * Block).

(** ** Diagnostics *)

(** One [logger.info('Removing op "{}" (type: {})')] record. *)
Record Diag := mkDiag { diag_name : string; diag_type : string }.

Definition removing (op : Operation) : Diag := mkDiag (name op) (op_type op).

(** ** The sweep *)

(** The variables one entry of [op.inputs] contributes to [used_vars]. *)
Definition input_vars (r : InputRef) : list Var :=
  match r with
  | Single v => [v]
  | Multi vs => vs
  end.

(** What a call of [_dead_code_elimination_block] leaves behind: the block
    as mutated, the returned [used_vars], and the records logged. *)
Record Outcome := mkOutcome {
  out_block : Block;
  out_used : gset Var;
  out_log : list Diag
}.

(** The local variables of one call during the loop over
    [reversed(block.operations)].  Operation objects are compared by
    identity; an object of the list is identified by its index in
    [block.operations], so a reference to it is the index together with the
    object.  [swept] is the current content of the operations already
    visited (a suffix of the list), [log] the records logged so far. *)
Record SweepState := mkSweep {
  used_vars : gset Var;
  ops_to_remove : list (nat * Operation);
  swept : list Operation;
  log : list Diag
}.

(** [used_vars = set(); ops_to_remove = list(); used_vars.update(block.outputs)] *)
Definition sweep_init (outs : list Var) : SweepState :=
  mkSweep (list_to_set outs) [] [] [].

(** [not set(op.outputs).intersection(used_vars)] *)
Definition no_output_used (op : Operation) (used : gset Var) : bool :=
  bool_decide (list_to_set (outputs op) ∩ used = ∅).

(** [for _, input_var in op.inputs.items(): used_vars.update(...)] *)
Definition mark_inputs (ins : list (string * InputRef)) (used : gset Var)
  : gset Var :=
  fold_left (fun u kv => u ∪ list_to_set (input_vars kv.2)) ins used.

Section Sweep.
(** The recursive call on a nested block. *)
Variable rec : Block -> Outcome.

(** One iteration of [for b in op.blocks]: the state is [used_vars], the
    log, and the nested blocks processed so far. *)
Definition visit_block (acc : gset Var * list Diag * list Block)
    (b : Block) : gset Var * list Diag * list Block :=
  let '(used, lg, done_bs) := acc in
  let r := rec b in
  (used ∪ out_used r, lg ++ out_log r, done_bs ++ [out_block r]).

(** One iteration of [for op in reversed(block.operations)]; [n] is
    [len(block.operations)]. *)
Definition sweep_step (n : nat) (op : Operation) (st : SweepState)
    : SweepState :=
  if no_output_used op (used_vars st) then
    mkSweep (used_vars st)
            (ops_to_remove st ++ [(n - S (length (swept st)), op)])
            (op :: swept st)
            (log st)
  else
    let used1 := mark_inputs (inputs op) (used_vars st) in
    let '(used2, lg, bs) :=
      fold_left visit_block (blocks op) (used1, log st, []) in
    mkSweep used2 (ops_to_remove st) (with_blocks op bs :: swept st) lg.

(** The whole loop.  Iterating over the reversed list and threading the
    state is a right fold over the list itself. *)
Definition sweep (n : nat) (ops : list Operation) (outs : list Var)
    : SweepState :=
  fold_right (sweep_step n) (sweep_init outs) ops.
End Sweep.

(** Modelled from the spec: [Operation.remove_from_block], which is not part
    of the pass's file.  An operation removed from a scope is detached from
    that scope's operation list; the other operations keep their place. *)
Definition remove_from_block (i : nat) (ops : list (nat * Operation))
  : list (nat * Operation) :=
  filter (fun p => p.1 ≠ i) ops.

(** One iteration of [for op in ops_to_remove]. *)
Definition remove_step (acc : list (nat * Operation) * list Diag)
    (r : nat * Operation) : list (nat * Operation) * list Diag :=
  (remove_from_block r.1 acc.1, acc.2 ++ [removing r.2]).

(** Operation objects paired with their identity. *)
Definition tagged (ops : list Operation) : list (nat * Operation) :=
  zip (seq 0 (length ops)) ops.

(** The removal loop [for op in ops_to_remove], run on the state the sweep
    ends in. *)
Definition removal (st : SweepState) : list (nat * Operation) * list Diag :=
  fold_left remove_step (ops_to_remove st) (tagged (swept st), log st).

(** The block as the removal loop leaves it, and the [return used_vars]. *)
Definition sweep_finish (outs : list Var) (st : SweepState) : Outcome :=
  let '(ops, lg) := removal st in
  mkOutcome (Blk ops.*2 outs) (used_vars st) lg.

(** [dead_code_elimination._dead_code_elimination_block] *)
Fixpoint _dead_code_elimination_block (b : Block) : Outcome :=
  match b with
  | Blk ops outs =>
      sweep_finish outs
        (sweep _dead_code_elimination_block (length ops) ops outs)
  end.

Notation dce_block := _dead_code_elimination_block.

(** [dead_code_elimination.apply]: every function of the program in turn. *)
Definition apply_step (acc : Program * list Diag) (f : string * Block)
  : Program * list Diag :=
  let r := dce_block f.2 in
  (acc.1 ++ [(f.1, out_block r)], acc.2 ++ out_log r).

Definition apply (prog : Program) : Program * list Diag :=
  fold_left apply_step prog ([], []).

(** ** The loop, operation by operation *)

(** All the variables of [op.inputs], multi-input entries flattened. *)
Definition op_inputs (op : Operation) : list Var :=
  inputs op ≫= (fun kv => input_vars kv.2).

(** The nested blocks of a visited live operation, after the recursive
    calls. *)
Definition process (op : Operation) : Operation :=
  with_blocks op (out_block ∘ dce_block <$> blocks op).

(** What the recursive calls on the nested blocks of an operation return,
    and what they log. *)
Definition nested_used (op : Operation) : gset Var :=
  ⋃ (out_used ∘ dce_block <$> blocks op).
Definition nested_log (op : Operation) : list Diag :=
  concat (out_log ∘ dce_block <$> blocks op).

(** [used_vars] once the loop has visited the operations [ops] (a suffix of
    the block's list). *)
Fixpoint used_after (ops : list Operation) (outs : list Var) : gset Var :=
  match ops with
  | [] => list_to_set outs
  | op :: rest =>
      let u := used_after rest outs in
      if no_output_used op u then u
      else u ∪ list_to_set (op_inputs op) ∪ nested_used op
  end.

(** The operations among [ops] that the loop leaves in the block. *)
Fixpoint kept (ops : list Operation) (outs : list Var) : list Operation :=
  match ops with
  | [] => []
  | op :: rest =>
      if no_output_used op (used_after rest outs) then kept rest outs
      else process op :: kept rest outs
  end.

(** The operations among [ops] appended to [ops_to_remove], in the order
    of appending. *)
Fixpoint removed (ops : list Operation) (outs : list Var) : list Operation :=
  match ops with
  | [] => []
  | op :: rest =>
      if no_output_used op (used_after rest outs) then removed rest outs ++ [op]
      else removed rest outs
  end.

(** The records the recursive calls log while the loop visits [ops]. *)
Fixpoint sweep_log (ops : list Operation) (outs : list Var) : list Diag :=
  match ops with
  | [] => []
  | op :: rest =>
      if no_output_used op (used_after rest outs) then sweep_log rest outs
      else sweep_log rest outs ++ nested_log op
  end.

(** ** Notions the properties are stated with *)

(** The variables a block refers to: its declared outputs, the inputs of
    its operations and, transitively, whatever their nested blocks refer
    to. *)
Fixpoint consumed (b : Block) : gset Var :=
  match b with
  | Blk ops outs =>
      list_to_set outs
      ∪ ⋃ ((fun op => list_to_set (op_inputs op) ∪ ⋃ (consumed <$> blocks op))
             <$> ops)
  end.

(** The variables the operations of a block define. *)
Definition defined_vars (b : Block) : gset Var :=
  ⋃ (list_to_set ∘ outputs <$> operations b).

(** The free variables of a block: what it (or a nested block, as a free
    variable of its own) refers to and does not define itself. *)
Fixpoint free_vars (b : Block) : gset Var :=
  match b with
  | Blk ops outs =>
      (list_to_set outs
       ∪ ⋃ ((fun op => list_to_set (op_inputs op) ∪ ⋃ (free_vars <$> blocks op))
              <$> ops))
      ∖ ⋃ (list_to_set ∘ outputs <$> ops)
  end.

(** Every variable defined anywhere in the tree of a block. *)
Fixpoint all_defs (b : Block) : list Var :=
  match b with
  | Blk ops _ => ops ≫= (fun op => outputs op ++ (blocks op ≫= all_defs))
  end.

(** Lexical visibility and definition order: with [env] the variables
    visible from the enclosing scopes (or the function's parameters), every
    input of an operation, and every output of the block, is in [env] or
    defined by an earlier operation of the block. *)
Fixpoint scoped (env : gset Var) (b : Block) : bool :=
  match b with
  | Blk ops outs =>
      (fix go (env : gset Var) (l : list Operation) : bool :=
         match l with
         | [] => forallb (fun v => bool_decide (v ∈ env)) outs
         | op :: rest =>
             forallb (fun v => bool_decide (v ∈ env)) (op_inputs op)
             && forallb (scoped env) (blocks op)
             && go (env ∪ list_to_set (outputs op)) rest
         end) env ops
  end.

(** Operation names are unique within each block. *)
Fixpoint names_unique (b : Block) : bool :=
  match b with
  | Blk ops _ =>
      bool_decide (NoDup (name <$> ops))
      && forallb (fun op => forallb names_unique (blocks op)) ops
  end.

(** A well-formed scope: single assignment, lexical visibility in definition
    order, unique operation names. *)
Definition well_formed (env : gset Var) (b : Block) : bool :=
  scoped env b
  && bool_decide (NoDup (all_defs b))
  && bool_decide (Forall (fun v => v ∉ env) (all_defs b))
  && names_unique b.

(** The variables defined strictly inside the nested blocks of a block. *)
Definition nested_defs (b : Block) : list Var :=
  operations b ≫= (fun op => blocks op ≫= all_defs).

(** Single assignment: no variable has two producers in the tree. *)
Definition single_assignment (b : Block) : Prop := NoDup (all_defs b).

(** Reachability from the declared outputs of a block: a variable is
    reachable when it is a declared output, an input of an operation with a
    reachable output, or captured by a nested block of such an operation,
    that is reachable in the nested block and not defined by it. *)
Inductive Reach : Block -> Var -> Prop :=
  | Reach_output ops outs v :
      v ∈ outs -> Reach (Blk ops outs) v
  | Reach_input ops outs op o v :
      op ∈ ops -> o ∈ outputs op -> Reach (Blk ops outs) o ->
      v ∈ op_inputs op -> Reach (Blk ops outs) v
  | Reach_capture ops outs op o nb v :
      op ∈ ops -> o ∈ outputs op -> Reach (Blk ops outs) o ->
      nb ∈ blocks op -> Reach nb v -> v ∉ defined_vars nb ->
      Reach (Blk ops outs) v.

(** What the live part of a block refers to: as [Reach], but a nested block
    of a live operation passes up everything reachable in it, its own
    definitions included.  This is what the pass computes. *)
Inductive Needed : Block -> Var -> Prop :=
  | Needed_output ops outs v :
      v ∈ outs -> Needed (Blk ops outs) v
  | Needed_input ops outs op o v :
      op ∈ ops -> o ∈ outputs op -> Needed (Blk ops outs) o ->
      v ∈ op_inputs op -> Needed (Blk ops outs) v
  | Needed_nested ops outs op o nb v :
      op ∈ ops -> o ∈ outputs op -> Needed (Blk ops outs) o ->
      nb ∈ blocks op -> Needed nb v -> Needed (Blk ops outs) v.

(** ** Example blocks *)

Definition const_op (v : Var) : Operation := Op v "const" [] [v] [].

(** The block of the pass's docstring, with function parameter [x]. *)
Definition docstring_block : Block :=
  Blk [const_op "const_2"; const_op "const_3"; const_op "tx_0";
       const_op "ty_0";
       Op "matmul_0" "matmul"
          [("x", Single "x"); ("y", Single "const_2");
           ("transpose_x", Single "tx_0"); ("transpose_y", Single "ty_0")]
          ["matmul_0"] [];
       Op "linear_0" "linear"
          [("x", Single "x"); ("weight", Single "const_2");
           ("bias", Single "const_3")]
          ["linear_0"] []]
      ["linear_0"].

(** A block whose single declared output is defined by its own operation. *)
Definition self_contained_block : Block := Blk [const_op "a"] ["a"].

(** The body of a conditional: it adds the outer variable [k] to a constant
    of its own, and has a dead constant besides. *)
Definition branch_body : Block :=
  Blk [const_op "one"; const_op "unused";
       Op "add_0" "add" [("x", Single "k"); ("y", Single "one")] ["sum"] []]
      ["sum"].

Definition cond_op : Operation :=
  Op "cond_0" "cond" [("pred", Single "p")] ["r"]
     [branch_body; Blk [const_op "zero"] ["zero"]].

(** A live conditional whose body captures [k]. *)
Definition capture_block : Block :=
  Blk [const_op "k"; const_op "p"; cond_op] ["r"].

(** The same conditional with no use of its result. *)
Definition dead_cond_block : Block :=
  Blk [const_op "k"; const_op "p"; cond_op; const_op "out"] ["out"].

(** An operation with a multi-input parameter. *)
Definition concat_op : Operation :=
  Op "concat_0" "concat"
     [("values", Multi ["u"; "w"]); ("axis", Single "ax")] ["cat"] [].

(** ** The pass with its control flow recorded *)

(** What happens, in order, while the pass runs: a call of
    [_dead_code_elimination_block] is entered, an iteration of its loop
    over [reversed(block.operations)] visits an operation, the call
    returns. *)
Inductive Event :=
  | EvCall
  | EvVisit (op_name : string)
  | EvReturn.

Section TracedSweep.
Variable rec : Block -> Outcome * list Event.

Definition visit_block_traced
    (acc : gset Var * list Diag * list Block * list Event) (b : Block)
    : gset Var * list Diag * list Block * list Event :=
  let '(used, lg, done_bs, tr) := acc in
  let '(r, t) := rec b in
  (used ∪ out_used r, lg ++ out_log r, done_bs ++ [out_block r], tr ++ t).

Definition sweep_step_traced (n : nat) (op : Operation)
    (acc : SweepState * list Event) : SweepState * list Event :=
  let '(st, tr0) := acc in
  let tr := tr0 ++ [EvVisit (name op)] in
  if no_output_used op (used_vars st) then
    (mkSweep (used_vars st)
             (ops_to_remove st ++ [(n - S (length (swept st)), op)])
             (op :: swept st)
             (log st), tr)
  else
    let used1 := mark_inputs (inputs op) (used_vars st) in
    let '(used2, lg, bs, tr') :=
      fold_left visit_block_traced (blocks op) (used1, log st, [], tr) in
    (mkSweep used2 (ops_to_remove st) (with_blocks op bs :: swept st) lg,
     tr').

Definition sweep_traced (n : nat) (ops : list Operation) (outs : list Var)
    : SweepState * list Event :=
  fold_right (sweep_step_traced n) (sweep_init outs, [EvCall]) ops.
End TracedSweep.

Fixpoint _dead_code_elimination_block_traced (b : Block)
  : Outcome * list Event :=
  match b with
  | Blk ops outs =>
      let '(st, tr) :=
        sweep_traced _dead_code_elimination_block_traced (length ops) ops
          outs in
      (sweep_finish outs st, tr ++ [EvReturn])
  end.

Notation dce_block_traced := _dead_code_elimination_block_traced.

Definition apply_step_traced (acc : Program * list Diag * list Event)
    (f : string * Block) : Program * list Diag * list Event :=
  let '(prog, lg, tr) := acc in
  let '(r, t) := dce_block_traced f.2 in
  (prog ++ [(f.1, out_block r)], lg ++ out_log r, tr ++ t).

Definition apply_traced (prog : Program)
  : Program * list Diag * list Event :=
  fold_left apply_step_traced prog ([], [], []).

(** The number of operations in the tree of a block, and in a program. *)
Fixpoint op_count (b : Block) : nat :=
  match b with
  | Blk ops _ =>
      list_sum ((fun op => S (list_sum (op_count <$> blocks op))) <$> ops)
  end.

Definition program_op_count (prog : Program) : nat :=
  list_sum (op_count ∘ snd <$> prog).

(** The number of loop iterations in a trace. *)
Fixpoint count_visits (tr : list Event) : nat :=
  match tr with
  | [] => 0
  | EvVisit _ :: tr' => S (count_visits tr')
  | _ :: tr' => count_visits tr'
  end.

(** The operations visited by the loop of the call at depth [1], the
    trace being read at call depth [d]. *)
Fixpoint visits_at (d : nat) (tr : list Event) : list string :=
  match tr with
  | [] => []
  | EvCall :: tr' => visits_at (S d) tr'
  | EvReturn :: tr' => visits_at (pred d) tr'
  | EvVisit x :: tr' =>
      if Nat.eqb d 1 then x :: visits_at d tr' else visits_at d tr'
  end.

(** The call depth a trace ends at when read from depth [d]; [None] when a
    return has no earlier call to match. *)
Fixpoint depth_after (d : nat) (tr : list Event) : option nat :=
  match tr with
  | [] => Some d
  | EvCall :: tr' => depth_after (S d) tr'
  | EvReturn :: tr' =>
      match d with
      | 0 => None
      | S d' => depth_after d' tr'
      end
  | EvVisit _ :: tr' => depth_after d tr'
  end.

(** The events of the loop of one call, nested calls included. *)
Fixpoint sweep_trace (ops : list Operation) (outs : list Var) : list Event :=
  match ops with
  | [] => []
  | op :: rest =>
      sweep_trace rest outs ++ EvVisit (name op)
        :: (if no_output_used op (used_after rest outs) then []
            else concat (snd ∘ dce_block_traced <$> blocks op))
  end.

(** ** Auxiliary predicates *)

(** A block on which a second run of the pass changes nothing. *)
Definition settled (b : Block) : Prop :=
  dce_block (out_block (dce_block b))
  = mkOutcome (out_block (dce_block b)) (out_used (dce_block b)) [].

(** The instrumented pass computes what the pass computes. *)
Definition erases (b : Block) : Prop := (dce_block_traced b).1 = dce_block b.

(** A complete nested call is invisible to the depth and to the visits of
    the call that made it. *)
Definition transparent (tr : list Event) : Prop :=
  forall d rest,
    depth_after d (tr ++ rest) = depth_after d rest
    /\ (1 <= d -> visits_at d (tr ++ rest) = visits_at d rest).

(** The loop of a call at depth two or more: no visit of it counts. *)
Definition deep_transparent (tr : list Event) : Prop :=
  forall d rest,
    depth_after (S d) (tr ++ rest) = depth_after (S d) rest
    /\ (1 <= d -> visits_at (S d) (tr ++ rest) = visits_at (S d) rest).

(** ** Further notions *)

(** The variables the operations of a list define. *)
Definition defs_of (l : list Operation) : gset Var :=
  ⋃ (list_to_set ∘ outputs <$> l).

(** The check [scoped] makes on the operations of a block, from the
    operation list [l] on, with [env] the variables visible so far. *)
Fixpoint scoped_ops (env : gset Var) (l : list Operation) (outs : list Var)
  : bool :=
  match l with
  | [] => forallb (fun v => bool_decide (v ∈ env)) outs
  | op :: rest =>
      forallb (fun v => bool_decide (v ∈ env)) (op_inputs op)
      && forallb (scoped env) (blocks op)
      && scoped_ops (env ∪ list_to_set (outputs op)) rest outs
  end.

(** The three parts of well-formedness that liveness depends on: lexical
    visibility in definition order, single assignment, and no definition
    of a variable that is already visible from outside. *)
Definition well_scoped (env : gset Var) (b : Block) : Prop :=
  scoped env b = true
  /\ single_assignment b
  /\ Forall (fun v => v ∉ env) (all_defs b).

(** A block free of dead code at every depth: each operation has a
    reachable output, and so has each operation of each nested block. *)
Inductive DeepLive : Block -> Prop :=
  | DeepLive_block ops outs :
      (forall op, op ∈ ops ->
         (exists o, o ∈ outputs op /\ Reach (Blk ops outs) o)
         /\ forall nb, nb ∈ blocks op -> DeepLive nb) ->
      DeepLive (Blk ops outs).

(** A block with an operation that defines nothing. *)
Definition print_op : Operation :=
  Op "print_0" "print" [("x", Single "a")] [] [].

Definition effect_block : Block := Blk [const_op "a"; print_op] ["a"].

(** ** Induction over the ownership tree *)

Section BlockInd.
Variable P : Block -> Prop.
Hypothesis step :
  forall ops outs,
    Forall (fun op => Forall P (blocks op)) ops -> P (Blk ops outs).

Fixpoint Block_nested_ind (b : Block) : P b :=
  match b with
  | Blk ops outs =>
      step ops outs
        ((fix on_ops (l : list Operation)
            : Forall (fun op => Forall P (blocks op)) l :=
            match l with
            | [] => List.Forall_nil _
            | op :: l' =>
                List.Forall_cons _ op l'
                  (match op return Forall P (blocks op) with
                   | Op _ _ _ _ bs =>
                       (fix on_blocks (l : list Block) : Forall P l :=
                          match l with
                          | [] => List.Forall_nil _
                          | b' :: l'' =>
                              List.Forall_cons _ b' l''
                                (Block_nested_ind b') (on_blocks l'')
                          end) bs
                   end)
                  (on_ops l')
            end) ops)
  end.
End BlockInd.

(** ** Equations of the loops *)

Lemma mark_inputs_eq ins used :
  mark_inputs ins used = used ∪ list_to_set (ins ≫= (fun kv => input_vars kv.2)).
Proof.
  unfold mark_inputs. revert used.
  induction ins as [|kv ins IH]; intros used; simpl.
  - set_solver.
  - rewrite IH, list_to_set_app_L. set_solver.
Qed.

Lemma fold_visit_block rec bs used lg acc :
  fold_left (visit_block rec) bs (used, lg, acc)
  = (used ∪ ⋃ (out_used ∘ rec <$> bs),
     lg ++ concat (out_log ∘ rec <$> bs),
     acc ++ (out_block ∘ rec <$> bs)).
Proof.
  revert used lg acc.
  induction bs as [|b bs IH]; intros used lg acc; simpl.
  - rewrite !app_nil_r. f_equal. f_equal. set_solver.
  - rewrite IH. rewrite <- !app_assoc. simpl. f_equal. f_equal. set_solver.
Qed.

Lemma sweep_step_dead rec n op st :
  no_output_used op (used_vars st) = true ->
  sweep_step rec n op st
  = mkSweep (used_vars st)
            (ops_to_remove st ++ [(n - S (length (swept st)), op)])
            (op :: swept st) (log st).
Proof. intros H. unfold sweep_step. by rewrite H. Qed.

Lemma sweep_step_live n op st :
  no_output_used op (used_vars st) = false ->
  sweep_step dce_block n op st
  = mkSweep (used_vars st ∪ list_to_set (op_inputs op) ∪ nested_used op)
            (ops_to_remove st) (process op :: swept st)
            (log st ++ nested_log op).
Proof.
  intros H. unfold sweep_step. rewrite H, fold_visit_block, mark_inputs_eq.
  reflexivity.
Qed.

Lemma sweep_cons rec n op ops outs :
  sweep rec n (op :: ops) outs = sweep_step rec n op (sweep rec n ops outs).
Proof. reflexivity. Qed.

Lemma dce_block_unfold ops outs :
  dce_block (Blk ops outs)
  = sweep_finish outs (sweep dce_block (length ops) ops outs).
Proof. reflexivity. Qed.

Lemma sweep_used n ops outs :
  used_vars (sweep dce_block n ops outs) = used_after ops outs.
Proof.
  induction ops as [|op ops IH]; [done|].
  rewrite sweep_cons. simpl.
  destruct (no_output_used op (used_after ops outs)) eqn:E; rewrite <- IH in E.
  - rewrite sweep_step_dead by done. simpl. by rewrite IH.
  - rewrite sweep_step_live by done. simpl. by rewrite IH.
Qed.

Lemma sweep_swept_length n ops outs :
  length (swept (sweep dce_block n ops outs)) = length ops.
Proof.
  induction ops as [|op ops IH]; [done|].
  rewrite sweep_cons.
  destruct (no_output_used op (used_vars (sweep dce_block n ops outs))) eqn:E.
  - rewrite sweep_step_dead by done. simpl. by rewrite IH.
  - rewrite sweep_step_live by done. simpl. by rewrite IH.
Qed.

Lemma sweep_log_eq n ops outs :
  log (sweep dce_block n ops outs) = sweep_log ops outs.
Proof.
  induction ops as [|op ops IH]; [done|].
  rewrite sweep_cons. simpl. rewrite <- (sweep_used n).
  destruct (no_output_used op (used_vars (sweep dce_block n ops outs))) eqn:E.
  - rewrite sweep_step_dead by done. simpl. by rewrite IH.
  - rewrite sweep_step_live by done. simpl. by rewrite IH.
Qed.

Lemma sweep_removed n ops outs :
  (ops_to_remove (sweep dce_block n ops outs)).*2 = removed ops outs.
Proof.
  induction ops as [|op ops IH]; [done|].
  rewrite sweep_cons. simpl. rewrite <- (sweep_used n).
  destruct (no_output_used op (used_vars (sweep dce_block n ops outs))) eqn:E.
  - rewrite sweep_step_dead by done. simpl. rewrite fmap_app. by rewrite IH.
  - rewrite sweep_step_live by done. simpl. by rewrite IH.
Qed.

Lemma fold_remove_step rs l lg :
  fold_left remove_step rs (l, lg)
  = (filter (fun p => p.1 ∉ rs.*1) l, lg ++ (removing <$> rs.*2)).
Proof.
  revert l lg. induction rs as [|r rs IH]; intros l lg; simpl.
  - rewrite app_nil_r. f_equal. induction l as [|p l IHl]; [done|].
    rewrite filter_cons_True by set_solver. by rewrite <- IHl.
  - unfold remove_step at 2. simpl. rewrite IH. rewrite <- app_assoc. simpl.
    f_equal. unfold remove_from_block. rewrite list_filter_filter.
    apply list_filter_iff. intros p. set_solver.
Qed.

Lemma filter_tagged_ext (P Q : nat * Operation -> Prop)
    `{!forall p, Decision (P p)} `{!forall p, Decision (Q p)}
    (l : list (nat * Operation)) :
  Forall (fun p => P p <-> Q p) l -> filter P l = filter Q l.
Proof.
  induction 1 as [|p l Hp _ IH]; [done|].
  destruct (decide (P p)) as [HP|HP].
  - rewrite !filter_cons_True by tauto. by rewrite IH.
  - rewrite !filter_cons_False by tauto. done.
Qed.

Lemma zip_seq_ge (k m : nat) (l : list Operation) :
  Forall (fun p : nat * Operation => k <= p.1) (zip (seq k m) l).
Proof.
  revert k l. induction m as [|m IH]; intros k [|x l]; simpl; try done.
  constructor; [simpl; lia|].
  eapply Forall_impl; [apply IH|]. simpl. intros; lia.
Qed.

(** The removal loop leaves exactly the operations that were not appended
    to [ops_to_remove]; the identities appended by the loop over a suffix of
    the list are the indices of that suffix. *)
Lemma sweep_kept n ops outs :
  length ops <= n ->
  let st := sweep dce_block n ops outs in
  (filter (fun p => p.1 ∉ (ops_to_remove st).*1)
     (zip (seq (n - length ops) (length ops)) (swept st))).*2 = kept ops outs
  /\ Forall (fun r => n - length ops <= r.1 < n) (ops_to_remove st).
Proof.
  induction ops as [|op ops IH]; intros Hn; [done|].
  simpl in Hn. destruct IH as [IH1 IH2]; [lia|].
  cbn zeta. rewrite sweep_cons.
  cbn [kept]. rewrite <- (sweep_used n).
  pose proof (sweep_swept_length n ops outs) as Hlen.
  set (st := sweep dce_block n ops outs) in *.
  cbn [length]. replace (n - length ops) with (S (n - S (length ops))) in * by lia.
  set (k := n - S (length ops)) in *.
  destruct (no_output_used op (used_vars st)) eqn:E.
  - rewrite sweep_step_dead by done. cbn [ops_to_remove swept].
    rewrite Hlen. fold k. split.
    + cbn [seq zip zip_with]. rewrite fmap_app. cbn [fmap list_fmap fst].
      rewrite filter_cons_False by set_solver.
      rewrite <- IH1. f_equal. apply filter_tagged_ext.
      eapply Forall_impl; [apply (zip_seq_ge (S k))|].
      intros p Hp. cbn beta in *. rewrite not_elem_of_app.
      split; [tauto|]. intros H. split; [done|]. set_solver by lia.
    + apply Forall_app. split.
      * eapply Forall_impl; [exact IH2|]. cbn beta. intros; lia.
      * constructor; [simpl; lia|done].
  - rewrite sweep_step_live by done. cbn [ops_to_remove swept]. split.
    + cbn [seq zip zip_with].
      rewrite filter_cons_True.
      * cbn [fmap list_fmap snd]. by rewrite <- IH1.
      * cbn [fst]. intros Hin. apply list_elem_of_fmap in Hin as [r [-> Hr]].
        rewrite Forall_forall in IH2. apply IH2 in Hr. lia.
    + eapply Forall_impl; [exact IH2|]. cbn beta. intros; lia.
Qed.

(** The outcome of a call in terms of the per-operation functions. *)
Lemma dce_block_eq ops outs :
  dce_block (Blk ops outs)
  = mkOutcome (Blk (kept ops outs) outs) (used_after ops outs)
              (sweep_log ops outs ++ (removing <$> removed ops outs)).
Proof.
  rewrite dce_block_unfold. unfold sweep_finish, removal, tagged.
  rewrite fold_remove_step.
  destruct (sweep_kept (length ops) ops outs) as [Hk _]; [done|].
  cbn zeta in Hk. rewrite Nat.sub_diag in Hk.
  rewrite sweep_swept_length, Hk, sweep_used, sweep_log_eq, sweep_removed.
  reflexivity.
Qed.

(** ** Facts about the liveness set *)

Lemma no_output_used_true op used :
  no_output_used op used = true <-> forall o, o ∈ outputs op -> o ∉ used.
Proof.
  unfold no_output_used. rewrite bool_decide_eq_true. set_solver.
Qed.

Lemma no_output_used_false op used :
  no_output_used op used = false <-> exists o, o ∈ outputs op /\ o ∈ used.
Proof.
  unfold no_output_used. rewrite bool_decide_eq_false. split.
  - intros H. apply set_choose_L in H as [o Ho]. exists o. set_solver.
  - intros (o & Ho1 & Ho2). set_solver.
Qed.

Lemma sweep_step_used rec n op st :
  used_vars (sweep_step rec n op st)
  = if no_output_used op (used_vars st) then used_vars st
    else used_vars st ∪ list_to_set (op_inputs op)
         ∪ ⋃ (out_used ∘ rec <$> blocks op).
Proof.
  unfold sweep_step. destruct (no_output_used op (used_vars st)); [done|].
  rewrite fold_visit_block, mark_inputs_eq. reflexivity.
Qed.

Lemma elem_of_op_inputs op v :
  v ∈ op_inputs op <-> exists key r, (key, r) ∈ inputs op /\ v ∈ input_vars r.
Proof.
  unfold op_inputs. rewrite list_elem_of_bind. split.
  - intros ([key r] & Hv & Hin). eauto.
  - intros (key & r & Hin & Hv). exists (key, r). eauto.
Qed.

Lemma used_after_outputs ops outs : list_to_set outs ⊆ used_after ops outs.
Proof.
  induction ops as [|op ops IH]; simpl; [done|].
  destruct (no_output_used op (used_after ops outs)); set_solver.
Qed.

Lemma used_after_cons_mono op ops outs :
  used_after ops outs ⊆ used_after (op :: ops) outs.
Proof.
  simpl. destruct (no_output_used op (used_after ops outs)); set_solver.
Qed.

Lemma dce_block_used b :
  out_used (dce_block b) = used_after (operations b) (block_outputs b).
Proof. destruct b as [ops outs]. by rewrite dce_block_eq. Qed.

Lemma dce_block_operations b :
  operations (out_block (dce_block b)) = kept (operations b) (block_outputs b).
Proof. destruct b as [ops outs]. by rewrite dce_block_eq. Qed.

Lemma dce_block_outputs b :
  block_outputs (out_block (dce_block b)) = block_outputs b.
Proof. destruct b as [ops outs]. by rewrite dce_block_eq. Qed.

Lemma kept_sublist ops outs :
  exists ks, ks `sublist_of` ops /\ kept ops outs = process <$> ks.
Proof.
  induction ops as [|op ops (ks & Hks & IH)]; simpl.
  - exists []. split; [constructor|done].
  - destruct (no_output_used op (used_after ops outs)).
    + exists ks. split; [by constructor|done].
    + exists (op :: ks). split; [by constructor|]. simpl. by rewrite IH.
Qed.

Lemma sweep_swept_shape n ops outs :
  Forall2 (fun op' op => op' = op \/ op' = process op)
          (swept (sweep dce_block n ops outs)) ops.
Proof.
  induction ops as [|op ops IH]; [constructor|].
  rewrite sweep_cons.
  destruct (no_output_used op (used_vars (sweep dce_block n ops outs))) eqn:E.
  - rewrite sweep_step_dead by done. constructor; auto.
  - rewrite sweep_step_live by done. constructor; auto.
Qed.

(** ** A dead operation is opaque to the sweep *)

Lemma outcome_of_prefix pre l1 l2 outs :
  used_after l1 outs = used_after l2 outs ->
  kept l1 outs = kept l2 outs ->
  sweep_log l1 outs = sweep_log l2 outs ->
  removing <$> removed l1 outs = removing <$> removed l2 outs ->
  used_after (pre ++ l1) outs = used_after (pre ++ l2) outs
  /\ kept (pre ++ l1) outs = kept (pre ++ l2) outs
  /\ sweep_log (pre ++ l1) outs = sweep_log (pre ++ l2) outs
  /\ removing <$> removed (pre ++ l1) outs
     = removing <$> removed (pre ++ l2) outs.
Proof.
  intros Hu Hk Hl Hr. induction pre as [|a pre (IHu & IHk & IHl & IHr)].
  - done.
  - simpl. rewrite IHu.
    destruct (no_output_used a (used_after (pre ++ l2) outs));
      rewrite ?fmap_app, ?IHk, ?IHl, ?IHr; done.
Qed.

(** ** A second run *)

Lemma settled_blocks bs :
  Forall settled bs ->
  out_used ∘ dce_block <$> (out_block ∘ dce_block <$> bs)
  = out_used ∘ dce_block <$> bs
  /\ out_block ∘ dce_block <$> (out_block ∘ dce_block <$> bs)
     = out_block ∘ dce_block <$> bs
  /\ concat (out_log ∘ dce_block <$> (out_block ∘ dce_block <$> bs)) = [].
Proof.
  induction 1 as [|b bs Hb _ (IH1 & IH2 & IH3)]; [done|].
  unfold settled in Hb. rewrite !fmap_cons, IH1, IH2. cbn [concat].
  rewrite IH3. unfold compose. rewrite Hb. done.
Qed.

Lemma settled_process op :
  Forall settled (blocks op) ->
  nested_used (process op) = nested_used op
  /\ process (process op) = process op
  /\ nested_log (process op) = [].
Proof.
  intros H. destruct (settled_blocks _ H) as (H1 & H2 & H3).
  unfold nested_used, nested_log, process, with_blocks.
  cbn [blocks name op_type inputs outputs].
  by rewrite H1, H2, H3.
Qed.

Lemma settled_ops ops outs :
  Forall (fun op => Forall settled (blocks op)) ops ->
  used_after (kept ops outs) outs = used_after ops outs
  /\ kept (kept ops outs) outs = kept ops outs
  /\ removed (kept ops outs) outs = []
  /\ sweep_log (kept ops outs) outs = [].
Proof.
  induction 1 as [|op ops Hop _ (IHu & IHk & IHr & IHl)]; [done|].
  simpl. destruct (no_output_used op (used_after ops outs)) eqn:E; [done|].
  destruct (settled_process op Hop) as (Hn & Hp & Hl).
  simpl. rewrite IHu.
  change (no_output_used (process op) (used_after ops outs))
    with (no_output_used op (used_after ops outs)).
  rewrite E, Hn, Hp, IHk, IHr, IHl, Hl. done.
Qed.

(** ** The returned set *)

Lemma consumed_kept ops outs :
  Forall (fun op => Forall (fun nb =>
            out_used (dce_block nb) = consumed (out_block (dce_block nb)))
            (blocks op)) ops ->
  used_after ops outs = consumed (Blk (kept ops outs) outs).
Proof.
  induction 1 as [|op ops Hop _ IH]; simpl.
  - set_solver.
  - destruct (no_output_used op (used_after ops outs)); [done|].
    rewrite IH. simpl.
    assert (nested_used op
            = ⋃ (consumed <$> (out_block ∘ dce_block <$> blocks op))) as ->.
    { unfold nested_used. f_equal.
      induction Hop as [|nb bs Hnb _ IHbs]; [done|].
      rewrite !fmap_cons, IHbs. unfold compose at 1 2. by rewrite Hnb. }
    change (op_inputs (process op)) with (op_inputs op).
    set_solver.
Qed.

Lemma dce_block_consumed b :
  out_used (dce_block b) = consumed (out_block (dce_block b)).
Proof.
  induction b as [ops outs IH] using Block_nested_ind.
  rewrite dce_block_eq. simpl out_used. simpl out_block.
  by apply consumed_kept.
Qed.

Lemma union_list_fmap_mono {A} (f g : A -> gset Var) (l : list A) :
  Forall (fun x => f x ⊆ g x) l -> ⋃ (f <$> l) ⊆ ⋃ (g <$> l).
Proof. induction 1; simpl; set_solver. Qed.

Lemma free_vars_consumed b : free_vars b ⊆ consumed b.
Proof.
  induction b as [ops outs IH] using Block_nested_ind.
  simpl.
  assert (⋃ ((fun op => list_to_set (op_inputs op)
                         ∪ ⋃ (free_vars <$> blocks op)) <$> ops)
          ⊆ ⋃ ((fun op => list_to_set (op_inputs op)
                           ∪ ⋃ (consumed <$> blocks op)) <$> ops)).
  { apply union_list_fmap_mono. eapply Forall_impl; [exact IH|].
    intros op Hop. cbn beta.
    pose proof (union_list_fmap_mono free_vars consumed _ Hop). set_solver. }
  set_solver.
Qed.

(** ** Which operations are marked *)

Lemma ops_to_remove_step_mono rec n op st r :
  r ∈ ops_to_remove st -> r ∈ ops_to_remove (sweep_step rec n op st).
Proof.
  intros Hr. unfold sweep_step.
  destruct (no_output_used op (used_vars st)); simpl.
  - apply elem_of_app. by left.
  - by destruct (fold_left _ _ _) as [[? ?] ?].
Qed.

Lemma sweep_marks_dead n ops outs i op :
  length ops <= n ->
  ops !! i = Some op ->
  no_output_used op (used_after (drop (S i) ops) outs) = true ->
  (n - length ops + i, op) ∈ ops_to_remove (sweep dce_block n ops outs).
Proof.
  revert i. induction ops as [|a ops IH]; intros i Hn Hi Hdead; [done|].
  simpl in Hn. rewrite sweep_cons. destruct i as [|j].
  - simpl in Hi, Hdead. injection Hi as ->. rewrite drop_0 in Hdead.
    rewrite sweep_step_dead by (by rewrite sweep_used).
    simpl. rewrite sweep_swept_length, Nat.add_0_r.
    apply elem_of_app. right. constructor.
  - simpl in Hi, Hdead. apply ops_to_remove_step_mono.
    replace (n - length (a :: ops) + S j) with (n - length ops + j)
      by (simpl; lia).
    apply IH; [lia|done|done].
Qed.

Lemma kept_lookup ops outs op' :
  op' ∈ kept ops outs ->
  exists j op, ops !! j = Some op /\ op' = process op
    /\ no_output_used op (used_after (drop (S j) ops) outs) = false.
Proof.
  induction ops as [|a ops IH]; simpl; [by rewrite elem_of_nil|].
  destruct (no_output_used a (used_after ops outs)) eqn:E.
  - intros (j & op & Hj & -> & Hl)%IH. by exists (S j), op.
  - rewrite elem_of_cons. intros [->|(j & op & Hj & -> & Hl)%IH].
    + exists 0, a. by rewrite drop_0.
    + by exists (S j), op.
Qed.

Lemma kept_app_elem pre l outs op' :
  op' ∈ kept l outs -> op' ∈ kept (pre ++ l) outs.
Proof.
  intros H. induction pre as [|a pre IH]; simpl; [done|].
  destruct (no_output_used a (used_after (pre ++ l) outs)); [done|].
  by apply elem_of_cons; right.
Qed.

(** ** Liveness and reachability *)

Lemma nested_used_elem op v :
  v ∈ nested_used op <-> exists nb, nb ∈ blocks op /\ v ∈ out_used (dce_block nb).
Proof.
  unfold nested_used. rewrite elem_of_union_list. split.
  - intros (X & (nb & -> & Hnb)%list_elem_of_fmap & Hv). eauto.
  - intros (nb & Hnb & Hv). exists (out_used (dce_block nb)).
    split; [|done]. apply list_elem_of_fmap. by exists nb.
Qed.

(** Everything that enters the liveness set is reachable in the block the
    pass was given. *)
Lemma used_after_needed ops outs :
  Forall (fun op => Forall (fun nb =>
            forall v, v ∈ out_used (dce_block nb) -> Needed nb v)
            (blocks op)) ops ->
  forall l, (forall op, op ∈ l -> op ∈ ops) ->
  forall v, v ∈ used_after l outs -> Needed (Blk ops outs) v.
Proof.
  intros Hnested. induction l as [|a l IH]; intros Hl v Hv.
  - simpl in Hv. apply Needed_output. by apply elem_of_list_to_set in Hv.
  - assert (Ha : a ∈ ops) by (apply Hl; constructor).
    assert (Hl' : forall op, op ∈ l -> op ∈ ops)
      by (intros op Hop; apply Hl; by constructor).
    specialize (IH Hl'). simpl in Hv.
    destruct (no_output_used a (used_after l outs)) eqn:E; [by apply IH|].
    apply no_output_used_false in E as (o & Ho & Hu).
    apply elem_of_union in Hv as [Hv|Hv];
      [apply elem_of_union in Hv as [Hv|Hv]|].
    + by apply IH.
    + apply elem_of_list_to_set in Hv.
      eapply Needed_input; eauto.
    + apply nested_used_elem in Hv as (nb & Hnb & Hv).
      rewrite Forall_forall in Hnested.
      specialize (Hnested a Ha). rewrite Forall_forall in Hnested.
      eapply Needed_nested; eauto.
Qed.

Lemma dce_block_needed b v : v ∈ out_used (dce_block b) -> Needed b v.
Proof.
  revert v. induction b as [ops outs IH] using Block_nested_ind.
  intros v. rewrite dce_block_used. simpl.
  by apply used_after_needed.
Qed.

(** Everything that enters the liveness set is reachable in the block the
    pass leaves, and so is an output of each operation it keeps. *)
Lemma used_after_needed_post ops outs :
  Forall (fun op => Forall (fun nb =>
            forall v, v ∈ out_used (dce_block nb) ->
                      Needed (out_block (dce_block nb)) v)
            (blocks op)) ops ->
  forall l pre, ops = pre ++ l ->
    (forall v, v ∈ used_after l outs -> Needed (Blk (kept ops outs) outs) v)
    /\ (forall op', op' ∈ kept l outs ->
          exists o, o ∈ outputs op' /\ Needed (Blk (kept ops outs) outs) o).
Proof.
  intros Hnested. induction l as [|a l IH]; intros pre Hops.
  - split.
    + intros v Hv. apply Needed_output. by apply elem_of_list_to_set in Hv.
    + intros op'. simpl. by rewrite elem_of_nil.
  - destruct (IH (pre ++ [a])) as [IHu IHk];
      [by rewrite <- app_assoc|].
    simpl. destruct (no_output_used a (used_after l outs)) eqn:E; [done|].
    apply no_output_used_false in E as (o & Ho & Hu).
    assert (Hin : process a ∈ kept ops outs).
    { rewrite Hops. apply kept_app_elem. simpl.
      destruct (no_output_used a (used_after l outs)) eqn:E'.
      - by destruct (proj1 (no_output_used_true _ _) E' o).
      - constructor. }
    assert (Ha : a ∈ ops).
    { rewrite Hops. apply elem_of_app. right. constructor. }
    split.
    + intros v Hv.
      apply elem_of_union in Hv as [Hv|Hv];
        [apply elem_of_union in Hv as [Hv|Hv]|].
      * by apply IHu.
      * apply elem_of_list_to_set in Hv.
        eapply (Needed_input _ _ (process a) o); eauto.
      * apply nested_used_elem in Hv as (nb & Hnb & Hv).
        rewrite Forall_forall in Hnested.
        specialize (Hnested a Ha). rewrite Forall_forall in Hnested.
        eapply (Needed_nested _ _ (process a) o (out_block (dce_block nb)));
          eauto.
        unfold process, with_blocks. cbn [blocks].
        apply list_elem_of_fmap. by exists nb.
    + intros op'. rewrite elem_of_cons. intros [->|Hop']; [|by apply IHk].
      exists o. split; [done|]. by apply IHu.
Qed.

Lemma dce_block_needed_post b v :
  v ∈ out_used (dce_block b) -> Needed (out_block (dce_block b)) v.
Proof.
  revert v. induction b as [ops outs IH] using Block_nested_ind.
  intros v. rewrite dce_block_eq. simpl.
  by apply (used_after_needed_post ops outs IH ops []).
Qed.

Lemma Needed_consumed b v : Needed b v -> v ∈ consumed b.
Proof.
  induction 1 as [ops outs v Hv
                 |ops outs op o v Hop Ho _ _ Hv
                 |ops outs op o nb v Hop Ho _ _ Hnb _ IH]; simpl.
  - apply elem_of_union_l. by apply elem_of_list_to_set.
  - apply elem_of_union_r, elem_of_union_list.
    eexists. split; [apply list_elem_of_fmap; by exists op|].
    apply elem_of_union_l. by apply elem_of_list_to_set.
  - apply elem_of_union_r, elem_of_union_list.
    eexists. split; [apply list_elem_of_fmap; by exists op|].
    apply elem_of_union_r, elem_of_union_list.
    exists (consumed nb). split; [|done].
    apply list_elem_of_fmap. by exists nb.
Qed.

Lemma all_blocks_needed ops :
  Forall (fun op => Forall (fun nb =>
            forall v, v ∈ out_used (dce_block nb) -> Needed nb v)
            (blocks op)) ops.
Proof.
  apply Forall_forall. intros op _. apply Forall_forall. intros nb _ v.
  apply dce_block_needed.
Qed.

Lemma unreachable_dead ops outs i op :
  ops !! i = Some op ->
  (forall o, o ∈ outputs op -> ~ Needed (Blk ops outs) o) ->
  no_output_used op (used_after (drop (S i) ops) outs) = true.
Proof.
  intros Hi Hun. apply no_output_used_true. intros o Ho Hu.
  apply (Hun o Ho).
  apply (used_after_needed ops outs (all_blocks_needed ops) (drop (S i) ops));
    [|done].
  intros op' Hop'. eapply list_elem_of_lookup.
  apply list_elem_of_lookup in Hop' as [j Hj].
  rewrite lookup_drop in Hj. eauto.
Qed.

(** ** Captures under single assignment *)

Lemma Reach_Needed b v : Reach b v -> Needed b v.
Proof.
  induction 1; [by apply Needed_output|by eapply Needed_input|].
  by eapply Needed_nested.
Qed.

Lemma sublist_bind_elem {A B} (f : A -> list B) (x : A) (l : list A) :
  x ∈ l -> f x `sublist_of` l ≫= f.
Proof.
  induction 1 as [x l|x y l _ IH]; rewrite bind_cons.
  - by apply sublist_inserts_r.
  - by apply sublist_inserts_l.
Qed.

Lemma all_defs_unfold ops outs :
  all_defs (Blk ops outs)
  = ops ≫= (fun op => outputs op ++ (blocks op ≫= all_defs)).
Proof. reflexivity. Qed.

Lemma all_defs_of_nested ops outs op nb :
  op ∈ ops -> nb ∈ blocks op ->
  all_defs nb `sublist_of` nested_defs (Blk ops outs)
  /\ all_defs nb `sublist_of` all_defs (Blk ops outs).
Proof.
  intros Hop Hnb.
  pose proof (sublist_bind_elem all_defs nb (blocks op) Hnb) as H1.
  split.
  - etrans; [exact H1|].
    apply (sublist_bind_elem (fun op => blocks op ≫= all_defs) op ops Hop).
  - rewrite all_defs_unfold. etrans; [exact H1|].
    etrans; [apply (sublist_inserts_l (outputs op)); reflexivity|].
    apply (sublist_bind_elem
             (fun op => outputs op ++ (blocks op ≫= all_defs)) op ops Hop).
Qed.

Lemma defined_vars_all_defs b v : v ∈ defined_vars b -> v ∈ all_defs b.
Proof.
  destruct b as [ops outs]. unfold defined_vars. simpl operations.
  rewrite elem_of_union_list, all_defs_unfold, list_elem_of_bind.
  intros (X & (op & -> & Hop)%list_elem_of_fmap & Hv).
  exists op. split; [|done]. apply elem_of_app. left.
  by apply elem_of_list_to_set in Hv.
Qed.

Lemma nested_defs_all_defs b v : v ∈ nested_defs b -> v ∈ all_defs b.
Proof.
  destruct b as [ops outs]. unfold nested_defs. simpl operations.
  rewrite all_defs_unfold, !list_elem_of_bind.
  intros (op & Hv & Hop). exists op. split; [|done].
  apply elem_of_app. by right.
Qed.

Lemma top_not_nested ops outs op o :
  single_assignment (Blk ops outs) ->
  op ∈ ops -> o ∈ outputs op -> o ∉ nested_defs (Blk ops outs).
Proof.
  unfold single_assignment, nested_defs. rewrite all_defs_unfold.
  simpl operations. intros Hnd Hop Ho.
  assert (Htop : o ∈ ops ≫= outputs)
    by (apply list_elem_of_bind; eauto).
  clear op Hop Ho. induction ops as [|a ops IH]; [apply not_elem_of_nil|].
  rewrite bind_cons in *.
  apply NoDup_app in Hnd as (Ha & Hcross & Hrest).
  apply NoDup_app in Ha as (_ & Hself & _).
  assert (Hin_top : forall x, x ∈ ops ≫= outputs ->
            x ∈ ops ≫= (fun op => outputs op ++ (blocks op ≫= all_defs))).
  { intros x (op & Hx & Hop)%list_elem_of_bind.
    apply list_elem_of_bind. exists op. split; [|done].
    apply elem_of_app. by left. }
  assert (Hin_nested : forall x,
            x ∈ ops ≫= (fun op => blocks op ≫= all_defs) ->
            x ∈ ops ≫= (fun op => outputs op ++ (blocks op ≫= all_defs))).
  { intros x (op & Hx & Hop)%list_elem_of_bind.
    apply list_elem_of_bind. exists op. split; [|done].
    apply elem_of_app. by right. }
  apply elem_of_app in Htop as [Htop|Htop]; rewrite elem_of_app;
    intros [Hn|Hn].
  - by apply (Hself o).
  - apply (Hcross o); [apply elem_of_app; by left|by apply Hin_nested].
  - apply (Hcross o); [apply elem_of_app; by right|by apply Hin_top].
  - by apply IH.
Qed.

Lemma Needed_Reach b v :
  Needed b v -> single_assignment b -> v ∉ nested_defs b -> Reach b v.
Proof.
  induction 1 as [ops outs v Hv
                 |ops outs op o v Hop Ho _ IHo Hv
                 |ops outs op o nb v Hop Ho _ IHo Hnb _ IHnb];
    intros Hsa Hv'.
  - by apply Reach_output.
  - eapply Reach_input; eauto.
    apply IHo; [done|]. by eapply top_not_nested.
  - destruct (all_defs_of_nested ops outs op nb Hop Hnb) as [Hsub1 Hsub2].
    assert (Hnot : v ∉ all_defs nb).
    { intros Hin. apply Hv'. by eapply elem_of_sublist. }
    eapply (Reach_capture _ _ op o nb); eauto.
    + apply IHo; [done|]. by eapply top_not_nested.
    + apply IHnb.
      * unfold single_assignment in *. by eapply sublist_NoDup.
      * intros Hin. by apply Hnot, nested_defs_all_defs.
    + intros Hin. by apply Hnot, defined_vars_all_defs.
Qed.

Lemma all_defs_kept_sublist ops outs :
  Forall (fun op => Forall (fun nb =>
            all_defs (out_block (dce_block nb)) `sublist_of` all_defs nb)
            (blocks op)) ops ->
  all_defs (Blk (kept ops outs) outs) `sublist_of` all_defs (Blk ops outs).
Proof.
  rewrite !all_defs_unfold.
  induction 1 as [|op ops Hop _ IH]; [done|].
  cbn [kept]. rewrite bind_cons.
  destruct (no_output_used op (used_after ops outs)).
  - by apply sublist_inserts_l.
  - rewrite bind_cons. apply sublist_app; [|done].
    apply sublist_app; [done|].
    unfold process, with_blocks. cbn [blocks].
    induction Hop as [|nb bs Hnb _ IHbs]; [done|].
    rewrite fmap_cons, !bind_cons. by apply sublist_app.
Qed.

Lemma all_defs_dce_sublist b :
  all_defs (out_block (dce_block b)) `sublist_of` all_defs b.
Proof.
  induction b as [ops outs IH] using Block_nested_ind.
  rewrite dce_block_eq. simpl out_block.
  by apply all_defs_kept_sublist.
Qed.

Lemma single_assignment_dce b :
  single_assignment b -> single_assignment (out_block (dce_block b)).
Proof.
  unfold single_assignment. intros H.
  eapply sublist_NoDup; [exact H|apply all_defs_dce_sublist].
Qed.

Lemma well_formed_single_assignment env b :
  well_formed env b = true -> single_assignment b.
Proof.
  unfold well_formed. rewrite !andb_true_iff.
  intros [[[_ H] _] _]. by apply bool_decide_eq_true in H.
Qed.

(** ** The pass on the example blocks *)

Example docstring_block_outcome :
  out_block (dce_block docstring_block)
  = Blk [const_op "const_2"; const_op "const_3";
         Op "linear_0" "linear"
            [("x", Single "x"); ("weight", Single "const_2");
             ("bias", Single "const_3")]
            ["linear_0"] []]
        ["linear_0"]
  /\ out_log (dce_block docstring_block)
     = [mkDiag "matmul_0" "matmul"; mkDiag "ty_0" "const";
        mkDiag "tx_0" "const"].
Proof. split; vm_compute; reflexivity. Qed.

Example capture_block_outcome :
  name <$> operations (out_block (dce_block capture_block))
  = ["k"; "p"; "cond_0"]
  /\ out_log (dce_block capture_block) = [mkDiag "unused" "const"].
Proof. split; vm_compute; reflexivity. Qed.

Example dead_cond_block_outcome :
  dce_block dead_cond_block
  = mkOutcome (Blk [const_op "out"] ["out"]) {["out"]}
      [mkDiag "cond_0" "cond"; mkDiag "p" "const"; mkDiag "k" "const"].
Proof. vm_compute. reflexivity. Qed.

Example example_blocks_well_formed :
  well_formed {["x"]} docstring_block = true
  /\ well_formed ∅ capture_block = true
  /\ well_formed ∅ dead_cond_block = true.
Proof. repeat split; vm_compute; reflexivity. Qed.

(** ** The recorded control flow *)

Lemma fold_visit_block_traced rec bs used lg acc tr :
  fold_left (visit_block_traced rec) bs (used, lg, acc, tr)
  = (used ∪ ⋃ (out_used ∘ fst ∘ rec <$> bs),
     lg ++ concat (out_log ∘ fst ∘ rec <$> bs),
     acc ++ (out_block ∘ fst ∘ rec <$> bs),
     tr ++ concat (snd ∘ rec <$> bs)).
Proof.
  revert used lg acc tr.
  induction bs as [|b bs IH]; intros used lg acc tr; simpl.
  - rewrite !app_nil_r. do 3 f_equal. set_solver.
  - destruct (rec b) as [r t] eqn:E. rewrite IH, <- !app_assoc.
    simpl. do 3 f_equal. set_solver.
Qed.

Lemma erases_blocks bs :
  Forall erases bs ->
  out_used ∘ fst ∘ dce_block_traced <$> bs = out_used ∘ dce_block <$> bs
  /\ out_log ∘ fst ∘ dce_block_traced <$> bs = out_log ∘ dce_block <$> bs
  /\ out_block ∘ fst ∘ dce_block_traced <$> bs = out_block ∘ dce_block <$> bs.
Proof.
  induction 1 as [|b bs Hb _ (IH1 & IH2 & IH3)]; [done|].
  unfold erases in Hb. rewrite !fmap_cons, IH1, IH2, IH3.
  unfold compose. by rewrite Hb.
Qed.

Lemma sweep_traced_eq n ops outs :
  Forall (fun op => Forall erases (blocks op)) ops ->
  sweep_traced dce_block_traced n ops outs
  = (sweep dce_block n ops outs, EvCall :: sweep_trace ops outs).
Proof.
  induction 1 as [|op ops Hop _ IH]; [done|].
  unfold sweep_traced in *. cbn [fold_right]. rewrite IH.
  rewrite sweep_cons. cbn [sweep_trace]. rewrite <- (sweep_used n).
  unfold sweep_step_traced.
  destruct (no_output_used op (used_vars (sweep dce_block n ops outs))) eqn:E.
  - rewrite sweep_step_dead by done. done.
  - rewrite sweep_step_live by done.
    rewrite fold_visit_block_traced, mark_inputs_eq.
    destruct (erases_blocks _ Hop) as (H1 & H2 & H3).
    rewrite H1, H2, H3. simpl. rewrite <- app_assoc. done.
Qed.

Lemma dce_block_traced_eq b :
  dce_block_traced b
  = (dce_block b,
     EvCall :: sweep_trace (operations b) (block_outputs b) ++ [EvReturn]).
Proof.
  induction b as [ops outs IH] using Block_nested_ind.
  cbn [dce_block_traced]. rewrite sweep_traced_eq.
  - by rewrite dce_block_unfold.
  - eapply Forall_impl; [exact IH|]. intros op Hop.
    eapply Forall_impl; [exact Hop|]. intros nb Hnb.
    unfold erases. by rewrite Hnb.
Qed.

Lemma list_sum_cons x l : list_sum (x :: l) = x + list_sum l.
Proof. reflexivity. Qed.

Lemma count_visits_app t1 t2 :
  count_visits (t1 ++ t2) = count_visits t1 + count_visits t2.
Proof.
  induction t1 as [|[| |] t1 IH]; simpl; lia.
Qed.

Lemma count_visits_concat (bs : list Block) :
  Forall (fun nb => count_visits (dce_block_traced nb).2 <= op_count nb) bs ->
  count_visits (concat (snd ∘ dce_block_traced <$> bs))
  <= list_sum (op_count <$> bs).
Proof.
  induction 1 as [|nb bs Hnb _ IH]; [simpl; lia|].
  rewrite !fmap_cons. cbn [concat]. rewrite count_visits_app, list_sum_cons.
  unfold compose at 1. lia.
Qed.

Lemma count_visits_sweep ops outs :
  Forall (fun op => Forall (fun nb =>
            count_visits (dce_block_traced nb).2 <= op_count nb)
            (blocks op)) ops ->
  count_visits (sweep_trace ops outs) <= op_count (Blk ops outs).
Proof.
  induction 1 as [|op ops Hop _ IH]; [simpl; lia|].
  cbn [op_count sweep_trace] in *. rewrite fmap_cons, list_sum_cons.
  rewrite count_visits_app. cbn [count_visits].
  pose proof (count_visits_concat _ Hop).
  destruct (no_output_used op (used_after ops outs)); simpl count_visits; lia.
Qed.

Lemma count_visits_block b :
  count_visits (dce_block_traced b).2 <= op_count b.
Proof.
  induction b as [ops outs IH] using Block_nested_ind.
  rewrite dce_block_traced_eq. cbn [snd count_visits operations block_outputs].
  rewrite count_visits_app. simpl.
  pose proof (count_visits_sweep ops outs IH). simpl in *. lia.
Qed.

Lemma transparent_nil : transparent [].
Proof. by intros d rest. Qed.

Lemma transparent_app t1 t2 :
  transparent t1 -> transparent t2 -> transparent (t1 ++ t2).
Proof.
  intros H1 H2 d rest. rewrite <- app_assoc.
  destruct (H1 d (t2 ++ rest)) as [-> Hv1].
  destruct (H2 d rest) as [-> Hv2].
  split; [done|]. intros Hd. by rewrite Hv1, Hv2.
Qed.

Lemma transparent_concat ts :
  Forall transparent ts -> transparent (concat ts).
Proof.
  induction 1; simpl; [apply transparent_nil|by apply transparent_app].
Qed.

Lemma deep_transparent_sweep ops outs :
  Forall (fun op => Forall (fun nb => transparent (dce_block_traced nb).2)
            (blocks op)) ops ->
  deep_transparent (sweep_trace ops outs).
Proof.
  induction 1 as [|op ops Hop _ IH]; [by intros d rest|].
  intros d rest. cbn [sweep_trace]. rewrite <- app_assoc, <- app_comm_cons.
  destruct (IH d (EvVisit (name op)
      :: (if no_output_used op (used_after ops outs) then []
          else concat (snd ∘ dce_block_traced <$> blocks op)) ++ rest))
    as [-> Hv].
  assert (Ht : transparent
            (if no_output_used op (used_after ops outs) then []
             else concat (snd ∘ dce_block_traced <$> blocks op))).
  { destruct (no_output_used op (used_after ops outs));
      [apply transparent_nil|].
    apply transparent_concat. apply Forall_fmap.
    eapply Forall_impl; [exact Hop|]. by intros nb Hnb. }
  destruct (Ht (S d) rest) as [Hd' Hv'].
  split.
  - simpl. exact Hd'.
  - intros Hd. rewrite Hv by done. cbn [visits_at].
    destruct (Nat.eqb_spec (S d) 1) as [Heq|_]; [lia|].
    apply Hv'. lia.
Qed.

Lemma transparent_block b : transparent (dce_block_traced b).2.
Proof.
  induction b as [ops outs IH] using Block_nested_ind.
  rewrite dce_block_traced_eq. cbn [snd operations block_outputs].
  intros d rest. cbn [app depth_after visits_at]. rewrite <- app_assoc.
  destruct (deep_transparent_sweep ops outs IH d ([EvReturn] ++ rest))
    as [-> Hv].
  split; [done|]. intros Hd. rewrite Hv by done. done.
Qed.

Lemma own_visits_sweep ops outs rest :
  visits_at 1 (sweep_trace ops outs ++ rest)
  = rev (name <$> ops) ++ visits_at 1 rest.
Proof.
  revert rest. induction ops as [|op ops IH]; intros rest; [done|].
  cbn [sweep_trace]. rewrite <- app_assoc, IH.
  cbn [visits_at Nat.eqb fmap list_fmap rev app].
  rewrite <- app_assoc. f_equal. simpl. f_equal.
  destruct (no_output_used op (used_after ops outs)); [done|].
  apply transparent_concat; [|lia].
  apply Forall_fmap, Forall_forall. intros nb _. apply transparent_block.
Qed.

Lemma depth_sweep ops outs d rest :
  depth_after d (sweep_trace ops outs ++ rest) = depth_after d rest.
Proof.
  revert rest. induction ops as [|op ops IH]; intros rest; [done|].
  cbn [sweep_trace]. rewrite <- app_assoc, IH. cbn [depth_after app].
  destruct (no_output_used op (used_after ops outs)); [done|].
  apply transparent_concat.
  apply Forall_fmap, Forall_forall. intros nb _. apply transparent_block.
Qed.

Lemma apply_traced_eq prog acc lg tr :
  fold_left apply_step_traced prog (acc, lg, tr)
  = (fold_left apply_step prog (acc, lg),
     tr ++ concat (snd ∘ dce_block_traced ∘ snd <$> prog)).
Proof.
  revert acc lg tr. induction prog as [|f prog IH]; intros acc lg tr.
  - simpl. by rewrite app_nil_r.
  - cbn [fold_left]. unfold apply_step_traced at 2, apply_step at 2.
    rewrite dce_block_traced_eq. rewrite IH. cbn [fst snd].
    rewrite fmap_cons. cbn [concat].
    change ((snd ∘ dce_block_traced ∘ snd) f) with (dce_block_traced f.2).2.
    rewrite dce_block_traced_eq. cbn [snd]. by rewrite <- app_assoc.
Qed.

Lemma count_visits_program prog :
  count_visits (concat (snd ∘ dce_block_traced ∘ snd <$> prog))
  <= program_op_count prog.
Proof.
  unfold program_op_count.
  induction prog as [|f prog IH]; [simpl; lia|].
  rewrite !fmap_cons. cbn [concat]. rewrite count_visits_app, list_sum_cons.
  pose proof (count_visits_block f.2).
  change ((snd ∘ dce_block_traced ∘ snd) f) with (dce_block_traced f.2).2.
  change ((op_count ∘ snd) f) with (op_count f.2). lia.
Qed.

(** ** Lexical scoping *)

Lemma scoped_unfold env ops outs :
  scoped env (Blk ops outs) = scoped_ops env ops outs.
Proof.
  revert env. induction ops as [|op ops IH]; intros env; [done|].
  cbn [scoped_ops]. rewrite <- IH. reflexivity.
Qed.

Lemma forallb_elem_of (env : gset Var) (l : list Var) :
  forallb (fun v => bool_decide (v ∈ env)) l = true
  <-> forall v, v ∈ l -> v ∈ env.
Proof.
  rewrite forallb_forall. split.
  - intros H v Hv. apply list_elem_of_In in Hv.
    specialize (H v Hv). by apply bool_decide_eq_true in H.
  - intros H v Hv. apply bool_decide_eq_true. apply H.
    by apply list_elem_of_In.
Qed.

Lemma forallb_blocks (f : Block -> bool) (l : list Block) :
  forallb f l = true <-> forall nb, nb ∈ l -> f nb = true.
Proof.
  rewrite forallb_forall. split; intros H nb Hnb; apply H;
    by apply list_elem_of_In.
Qed.

Lemma scoped_ops_cons env op rest outs :
  scoped_ops env (op :: rest) outs = true
  <-> (forall v, v ∈ op_inputs op -> v ∈ env)
      /\ (forall nb, nb ∈ blocks op -> scoped env nb = true)
      /\ scoped_ops (env ∪ list_to_set (outputs op)) rest outs = true.
Proof.
  cbn [scoped_ops]. rewrite !andb_true_iff, forallb_elem_of, forallb_blocks.
  tauto.
Qed.

Lemma defs_of_cons op l :
  defs_of (op :: l) = list_to_set (outputs op) ∪ defs_of l.
Proof. reflexivity. Qed.

Lemma defs_of_app l1 l2 : defs_of (l1 ++ l2) = defs_of l1 ∪ defs_of l2.
Proof.
  induction l1 as [|op l1 IH]; simpl.
  - unfold defs_of at 2. simpl. set_solver.
  - rewrite !defs_of_cons, IH. set_solver.
Qed.

Lemma elem_of_defs_of l v :
  v ∈ defs_of l <-> exists op, op ∈ l /\ v ∈ outputs op.
Proof.
  unfold defs_of. rewrite elem_of_union_list. split.
  - intros (X & (op & -> & Hop)%list_elem_of_fmap & Hv).
    exists op. split; [done|]. by apply elem_of_list_to_set in Hv.
  - intros (op & Hop & Hv). exists (list_to_set (outputs op)).
    split; [|by apply elem_of_list_to_set].
    apply list_elem_of_fmap. by exists op.
Qed.

(** The check at an operation in the middle of the list. *)
Lemma scoped_ops_app env pre l outs :
  scoped_ops env (pre ++ l) outs = true ->
  scoped_ops (env ∪ defs_of pre) l outs = true.
Proof.
  revert env. induction pre as [|a pre IH]; intros env H.
  - replace (env ∪ defs_of []) with env by (unfold defs_of; set_solver).
    done.
  - simpl in H. apply scoped_ops_cons in H as (_ & _ & H).
    apply IH in H. rewrite defs_of_cons.
    by replace (env ∪ (list_to_set (outputs a) ∪ defs_of pre))
      with (env ∪ list_to_set (outputs a) ∪ defs_of pre) by set_solver.
Qed.

Lemma scoped_ops_outs env l outs v :
  scoped_ops env l outs = true -> v ∈ outs -> v ∈ env ∪ defs_of l.
Proof.
  revert env. induction l as [|op l IH]; intros env H Hv.
  - simpl in H. apply elem_of_union_l. by eapply forallb_elem_of.
  - apply scoped_ops_cons in H as (_ & _ & H).
    specialize (IH _ H Hv). rewrite defs_of_cons. set_solver.
Qed.

(** A well-scoped block refers only to visible variables and to its own
    definitions. *)
Lemma scoped_ops_consumed l outs :
  Forall (fun op => Forall (fun nb =>
            forall env, scoped env nb = true ->
              consumed nb ⊆ env ∪ list_to_set (all_defs nb))
            (blocks op)) l ->
  forall env, scoped_ops env l outs = true ->
    consumed (Blk l outs) ⊆ env ∪ list_to_set (all_defs (Blk l outs)).
Proof.
  induction 1 as [|op l Hop _ IH]; intros env Hs.
  - simpl in *. intros v Hv.
    assert (v ∈ outs) by set_solver.
    apply elem_of_union_l. by eapply forallb_elem_of.
  - apply scoped_ops_cons in Hs as (Hin & Hnb & Hrest).
    specialize (IH _ Hrest).
    rewrite all_defs_unfold in IH. rewrite all_defs_unfold, bind_cons.
    cbn [consumed] in *. rewrite fmap_cons. cbn [union_list foldr].
    rewrite !list_to_set_app_L.
    assert (Hnested : ⋃ (consumed <$> blocks op)
              ⊆ env ∪ list_to_set (blocks op ≫= all_defs)).
    { clear IH Hin Hrest.
      induction Hop as [|nb bs Hb _ IHbs]; [set_solver|].
      rewrite fmap_cons, bind_cons, list_to_set_app_L. cbn [union_list foldr].
      assert (consumed nb ⊆ env ∪ list_to_set (all_defs nb))
        by (apply Hb, Hnb; constructor).
      assert (⋃ (consumed <$> bs) ⊆ env ∪ list_to_set (bs ≫= all_defs)).
      { apply IHbs. intros nb' Hnb'. apply Hnb. by constructor. }
      set_solver. }
    assert (Hinputs : list_to_set (op_inputs op) ⊆ env).
    { intros v Hv. apply Hin. by apply elem_of_list_to_set in Hv. }
    set_solver.
Qed.

Lemma scoped_consumed b :
  forall env, scoped env b = true ->
    consumed b ⊆ env ∪ list_to_set (all_defs b).
Proof.
  induction b as [ops outs IH] using Block_nested_ind.
  intros env Hs. rewrite scoped_unfold in Hs.
  by apply scoped_ops_consumed.
Qed.

Lemma dce_block_used_consumed b : out_used (dce_block b) ⊆ consumed b.
Proof.
  intros v Hv. by apply Needed_consumed, dce_block_needed.
Qed.

Lemma used_after_app_mono pre l outs :
  used_after l outs ⊆ used_after (pre ++ l) outs.
Proof.
  induction pre as [|a pre IH]; [done|].
  etrans; [exact IH|]. apply used_after_cons_mono.
Qed.

(** ** No use before definition *)

(** A variable that is neither visible at an operation nor defined inside
    its nested blocks is not added to the liveness set by that operation. *)
Lemma later_def_not_marked env op post outs o :
  scoped_ops env (op :: post) outs = true ->
  o ∉ env -> o ∉ blocks op ≫= all_defs ->
  o ∉ op_inputs op /\ o ∉ nested_used op.
Proof.
  intros (Hin & Hnb & _)%scoped_ops_cons Henv Hnested. split.
  - intros Ho. by apply Henv, Hin.
  - intros (nb & Hb & Ho)%nested_used_elem.
    apply dce_block_used_consumed in Ho.
    apply (scoped_consumed nb env (Hnb nb Hb)) in Ho.
    apply elem_of_union in Ho as [Ho|Ho]; [done|].
    apply elem_of_list_to_set in Ho. apply Hnested.
    apply list_elem_of_bind. eauto.
Qed.

Lemma no_early_use mid env op post outs o :
  scoped_ops env (mid ++ op :: post) outs = true ->
  o ∉ env -> o ∉ defs_of mid ->
  (forall x, x ∈ mid ++ [op] -> o ∉ blocks x ≫= all_defs) ->
  o ∈ used_after (mid ++ op :: post) outs ->
  o ∈ used_after post outs.
Proof.
  revert env. induction mid as [|x mid IH]; intros env Hs Henv Hmid Hnd Ho.
  - simpl in *.
    destruct (later_def_not_marked env op post outs o Hs Henv) as [H1 H2];
      [apply Hnd; constructor|].
    destruct (no_output_used op (used_after post outs)); [done|].
    set_solver.
  - rewrite defs_of_cons in Hmid.
    destruct (later_def_not_marked env x (mid ++ op :: post) outs o Hs Henv)
      as [H1 H2]; [apply Hnd; constructor|].
    apply scoped_ops_cons in Hs as (_ & _ & Hs).
    apply (IH _ Hs).
    + set_solver.
    + set_solver.
    + intros y Hy. apply Hnd. by constructor.
    + simpl in Ho.
      destruct (no_output_used x (used_after (mid ++ op :: post) outs));
        [done|]. set_solver.
Qed.

Lemma well_formed_well_scoped env b :
  well_formed env b = true -> well_scoped env b.
Proof.
  unfold well_formed, well_scoped. rewrite !andb_true_iff.
  intros [[[H1 H2] H3] _]. split; [done|].
  split; by eapply bool_decide_eq_true.
Qed.

Lemma all_defs_app l1 l2 outs :
  all_defs (Blk (l1 ++ l2) outs)
  = all_defs (Blk l1 outs) ++ all_defs (Blk l2 outs).
Proof. rewrite !all_defs_unfold. apply bind_app. Qed.

Lemma defs_of_all_defs l outs v :
  v ∈ defs_of l -> v ∈ all_defs (Blk l outs).
Proof.
  intros (op & Hop & Hv)%elem_of_defs_of.
  rewrite all_defs_unfold. apply list_elem_of_bind. exists op.
  split; [|done]. apply elem_of_app. by left.
Qed.

(** Under well-formedness an output enters the liveness set only while the
    sweep is still after its producer. *)
Lemma output_used_late env pre op post outs o :
  well_scoped env (Blk (pre ++ op :: post) outs) ->
  o ∈ outputs op ->
  o ∈ used_after (pre ++ op :: post) outs ->
  o ∈ used_after post outs.
Proof.
  intros (Hs & Hsa & Henv) Ho Hu.
  rewrite scoped_unfold in Hs.
  assert (Hop : op ∈ pre ++ op :: post)
    by (apply elem_of_app; right; constructor).
  pose proof (top_not_nested _ outs op o Hsa Hop Ho) as Hnn.
  apply (no_early_use pre env op post outs o Hs); [| | |done].
  - rewrite Forall_forall in Henv. apply Henv.
    apply defs_of_all_defs, elem_of_defs_of. eauto.
  - intros Hpre. unfold single_assignment in Hsa.
    rewrite all_defs_app in Hsa.
    apply NoDup_app in Hsa as (_ & Hcross & _).
    apply (Hcross o); [by apply defs_of_all_defs|].
    apply defs_of_all_defs, elem_of_defs_of. exists op.
    split; [constructor|done].
  - intros x Hx Hin. apply Hnn. unfold nested_defs. simpl operations.
    apply list_elem_of_bind. exists x. split; [done|].
    apply elem_of_app in Hx as [Hx|Hx%list_elem_of_singleton].
    + apply elem_of_app. by left.
    + subst x. done.
Qed.

Lemma well_scoped_nested env pre op post outs nb :
  well_scoped env (Blk (pre ++ op :: post) outs) ->
  nb ∈ blocks op ->
  well_scoped (env ∪ defs_of pre) nb.
Proof.
  intros (Hs & Hsa & Henv) Hnb.
  assert (Hop : op ∈ pre ++ op :: post)
    by (apply elem_of_app; right; constructor).
  destruct (all_defs_of_nested _ outs op nb Hop Hnb) as [_ Hsub].
  split; [|split].
  - rewrite scoped_unfold in Hs. apply scoped_ops_app in Hs.
    apply scoped_ops_cons in Hs as (_ & Hs & _). by apply Hs.
  - unfold single_assignment in *. by eapply sublist_NoDup.
  - apply Forall_forall. intros x Hx.
    rewrite Forall_forall in Henv. intros [Hin|Hin]%elem_of_union.
    + apply (Henv x); [|done]. by eapply elem_of_sublist.
    + unfold single_assignment in Hsa. rewrite all_defs_app in Hsa.
      apply NoDup_app in Hsa as (_ & Hcross & _).
      apply (Hcross x); [by apply defs_of_all_defs|].
      rewrite all_defs_unfold, bind_cons. apply elem_of_app. left.
      apply elem_of_app. right. apply list_elem_of_bind. eauto.
Qed.

(** Under well-formedness everything the live part of the block refers to
    ends up in the returned set. *)
Lemma needed_used b v :
  Needed b v -> forall env, well_scoped env b -> v ∈ out_used (dce_block b).
Proof.
  induction 1 as [ops outs v Hv
                 |ops outs op o v Hop Ho _ IHo Hv
                 |ops outs op o nb v Hop Ho _ IHo Hnb _ IHnb];
    intros env Hws; rewrite dce_block_used; simpl.
  - by apply used_after_outputs, elem_of_list_to_set.
  - specialize (IHo env Hws). rewrite dce_block_used in IHo. simpl in IHo.
    apply list_elem_of_split in Hop as (pre & post & ->).
    apply (output_used_late env) in IHo; [|done|done].
    apply used_after_app_mono. simpl.
    destruct (no_output_used op (used_after post outs)) eqn:E.
    + by destruct (proj1 (no_output_used_true _ _) E o).
    + apply elem_of_union_l, elem_of_union_r. by apply elem_of_list_to_set.
  - specialize (IHo env Hws). rewrite dce_block_used in IHo. simpl in IHo.
    apply list_elem_of_split in Hop as (pre & post & ->).
    apply (output_used_late env) in IHo; [|done|done].
    specialize (IHnb _ (well_scoped_nested _ _ _ _ _ _ Hws Hnb)).
    apply used_after_app_mono. simpl.
    destruct (no_output_used op (used_after post outs)) eqn:E.
    + by destruct (proj1 (no_output_used_true _ _) E o).
    + apply elem_of_union_r, nested_used_elem. eauto.
Qed.

(** ** Which operations survive *)

Lemma kept_live pre op post outs :
  no_output_used op (used_after post outs) = false ->
  process op ∈ kept (pre ++ op :: post) outs.
Proof.
  intros E. apply kept_app_elem. simpl. rewrite E. constructor.
Qed.

Lemma sweep_marks_inv n ops outs j x :
  length ops <= n ->
  (j, x) ∈ ops_to_remove (sweep dce_block n ops outs) ->
  exists i, j = n - length ops + i /\ ops !! i = Some x
    /\ no_output_used x (used_after (drop (S i) ops) outs) = true.
Proof.
  induction ops as [|a ops IH]; intros Hn Hin.
  - simpl in Hin. by apply elem_of_nil in Hin.
  - simpl in Hn. rewrite sweep_cons in Hin.
    destruct (no_output_used a (used_vars (sweep dce_block n ops outs)))
      eqn:E.
    + rewrite sweep_step_dead in Hin by done. simpl in Hin.
      apply elem_of_app in Hin as [Hin|Hin%list_elem_of_singleton].
      * destruct IH as (i & -> & Hi & Hd); [lia|done|].
        exists (S i). split; [simpl; lia|]. by split.
      * injection Hin as -> ->. exists 0.
        rewrite sweep_swept_length, Nat.add_0_r. split; [done|].
        split; [done|]. simpl. rewrite drop_0. by rewrite <- (sweep_used n).
    + rewrite sweep_step_live in Hin by done. simpl in Hin.
      destruct IH as (i & -> & Hi & Hd); [lia|done|].
      exists (S i). split; [simpl; lia|]. by split.
Qed.

Lemma live_not_marked ops outs i op :
  ops !! i = Some op ->
  no_output_used op (used_after (drop (S i) ops) outs) = false ->
  i ∉ (ops_to_remove (sweep dce_block (length ops) ops outs)).*1.
Proof.
  intros Hi Hlive ([j x] & Heq & Hin)%list_elem_of_fmap.
  simpl in Heq. subst j.
  apply sweep_marks_inv in Hin as (i' & Hj & Hi' & Hd); [|done].
  rewrite Nat.sub_diag in Hj. simpl in Hj. subst i'.
  rewrite Hi in Hi'. injection Hi' as <-. congruence.
Qed.

(** ** The pass keeps blocks well formed *)

Lemma scoped_kept l outs :
  Forall (fun op => Forall (fun nb =>
            forall E E', scoped E nb = true ->
              (forall v, v ∈ out_used (dce_block nb) -> v ∈ E -> v ∈ E') ->
              scoped E' (out_block (dce_block nb)) = true)
            (blocks op)) l ->
  forall E E', scoped_ops E l outs = true ->
    (forall v, v ∈ used_after l outs -> v ∈ E -> v ∈ E') ->
    scoped_ops E' (kept l outs) outs = true.
Proof.
  induction 1 as [|op l Hop _ IH]; intros E E' Hs Hsub.
  - simpl in *. apply forallb_elem_of. intros v Hv.
    apply Hsub; [by apply elem_of_list_to_set|].
    by eapply forallb_elem_of.
  - apply scoped_ops_cons in Hs as (Hin & Hnb & Hrest).
    simpl in Hsub |- *.
    destruct (no_output_used op (used_after l outs)) eqn:Elive.
    + apply (IH _ _ Hrest). intros v Hv [Hv'|Hv']%elem_of_union.
      * by apply Hsub.
      * apply elem_of_list_to_set in Hv'.
        by destruct (proj1 (no_output_used_true _ _) Elive v).
    + apply scoped_ops_cons. split; [|split].
      * intros v Hv. apply Hsub; [|by apply Hin].
        apply elem_of_union_l, elem_of_union_r.
        by apply elem_of_list_to_set.
      * unfold process, with_blocks. cbn [blocks].
        intros nb' (nb & -> & Hb)%list_elem_of_fmap.
        rewrite Forall_forall in Hop.
        apply (Hop nb Hb E E' (Hnb nb Hb)).
        intros v Hv HE. apply Hsub; [|done].
        apply elem_of_union_r, nested_used_elem. eauto.
      * apply (IH _ _ Hrest). intros v Hv [Hv'|Hv']%elem_of_union.
        -- apply elem_of_union_l. apply Hsub; [|done].
           by apply elem_of_union_l, elem_of_union_l.
        -- by apply elem_of_union_r.
Qed.

Lemma scoped_dce b E E' :
  scoped E b = true ->
  (forall v, v ∈ out_used (dce_block b) -> v ∈ E -> v ∈ E') ->
  scoped E' (out_block (dce_block b)) = true.
Proof.
  revert E E'. induction b as [ops outs IH] using Block_nested_ind.
  intros E E' Hs Hsub. rewrite dce_block_eq in Hsub |- *.
  cbn [out_block out_used] in Hsub |- *.
  rewrite scoped_unfold in Hs |- *. by eapply scoped_kept.
Qed.

Lemma names_unique_unfold ops outs :
  names_unique (Blk ops outs)
  = bool_decide (NoDup (name <$> ops))
    && forallb (fun op => forallb names_unique (blocks op)) ops.
Proof. reflexivity. Qed.

Lemma kept_names_sublist ops outs :
  name <$> kept ops outs `sublist_of` name <$> ops.
Proof.
  induction ops as [|op ops IH]; simpl; [done|].
  destruct (no_output_used op (used_after ops outs)).
  - by constructor.
  - simpl. by constructor.
Qed.

Lemma names_unique_dce b :
  names_unique b = true -> names_unique (out_block (dce_block b)) = true.
Proof.
  induction b as [ops outs IH] using Block_nested_ind.
  rewrite dce_block_eq. simpl out_block.
  rewrite !names_unique_unfold, !andb_true_iff.
  intros [Hnd Hnested]. split.
  - apply bool_decide_eq_true. apply bool_decide_eq_true in Hnd.
    eapply sublist_NoDup; [exact Hnd|apply kept_names_sublist].
  - clear Hnd. induction IH as [|op ops Hop _ IHops]; [done|].
    simpl in Hnested. apply andb_true_iff in Hnested as [H1 H2].
    simpl. destruct (no_output_used op (used_after ops outs));
      [by apply IHops|].
    simpl. apply andb_true_iff. split; [|by apply IHops].
    unfold process, with_blocks. cbn [blocks].
    apply forallb_blocks. intros nb' (nb & -> & Hb)%list_elem_of_fmap.
    rewrite Forall_forall in Hop. apply (Hop nb Hb).
    by eapply forallb_blocks.
Qed.

Lemma well_formed_iff env b :
  well_formed env b = true
  <-> well_scoped env b /\ names_unique b = true.
Proof.
  unfold well_formed, well_scoped, single_assignment.
  rewrite !andb_true_iff, !bool_decide_eq_true. tauto.
Qed.

Lemma well_scoped_dce env b :
  well_scoped env b -> well_scoped env (out_block (dce_block b)).
Proof.
  intros (Hs & Hsa & Henv). split; [|split].
  - by apply (scoped_dce b env env).
  - by apply single_assignment_dce.
  - apply Forall_forall. intros v Hv. rewrite Forall_forall in Henv.
    apply Henv. eapply elem_of_sublist; [exact Hv|].
    apply all_defs_dce_sublist.
Qed.

(** ** Liveness at every depth *)

Lemma kept_op_reach b op :
  single_assignment b ->
  op ∈ operations (out_block (dce_block b)) ->
  exists o, o ∈ outputs op /\ Reach (out_block (dce_block b)) o.
Proof.
  intros Hsa Hop. apply single_assignment_dce in Hsa.
  assert (exists o, o ∈ outputs op /\ Needed (out_block (dce_block b)) o)
    as (o & Ho & Hneeded).
  { destruct b as [ops outs]. rewrite dce_block_eq in *. simpl in *.
    assert (Hnested : Forall (fun op => Forall (fun nb =>
              forall v, v ∈ out_used (dce_block nb) ->
                        Needed (out_block (dce_block nb)) v)
              (blocks op)) ops).
    { apply Forall_forall. intros a _. apply Forall_forall. intros nb _ v.
      apply dce_block_needed_post. }
    by apply (used_after_needed_post ops outs Hnested ops []). }
  exists o. split; [done|]. apply Needed_Reach; [done|done|].
  destruct (out_block (dce_block b)) as [ops' outs'].
  by eapply top_not_nested.
Qed.

(** ** Blocks without declared outputs; operations without outputs *)

Lemma no_output_used_empty op : no_output_used op ∅ = true.
Proof. apply no_output_used_true. set_solver. Qed.

Lemma sweep_no_outputs ops :
  used_after ops [] = ∅ /\ kept ops [] = [] /\ sweep_log ops [] = []
  /\ removed ops [] = rev ops.
Proof.
  induction ops as [|op ops (Hu & Hk & Hl & Hr)]; [done|].
  simpl. rewrite Hu, no_output_used_empty, Hk, Hl, Hr. done.
Qed.


(** ** Every operation is kept or logged *)

Lemma sweep_partition ops outs :
  exists ks ds,
    ops ≡ₚ ks ++ ds
    /\ ks `sublist_of` ops /\ ds `sublist_of` ops
    /\ kept ops outs = process <$> ks
    /\ removed ops outs = rev ds
    /\ sweep_log ops outs = concat (nested_log <$> rev ks).
Proof.
  induction ops as [|op ops (ks & ds & Hp & Hks & Hds & Hk & Hr & Hl)].
  - exists [], []. by repeat split.
  - simpl. destruct (no_output_used op (used_after ops outs)).
    + exists ks, (op :: ds). repeat split.
      * rewrite Hp. by rewrite Permutation_middle.
      * by constructor.
      * by constructor.
      * done.
      * simpl. by rewrite Hr.
      * done.
    + exists (op :: ks), ds. repeat split.
      * simpl. by rewrite Hp.
      * by constructor.
      * by constructor.
      * simpl. by rewrite Hk.
      * done.
      * simpl. rewrite fmap_app, concat_app, Hl. simpl.
        by rewrite app_nil_r.
Qed.

(** ** More declared outputs, more survivors *)

Lemma used_after_mono ops outs1 outs2 :
  (forall v, v ∈ outs1 -> v ∈ outs2) ->
  used_after ops outs1 ⊆ used_after ops outs2
  /\ kept ops outs1 `sublist_of` kept ops outs2.
Proof.
  intros Hsub. induction ops as [|op ops [IHu IHk]].
  - simpl. split; [|done]. intros v. rewrite !elem_of_list_to_set. auto.
  - simpl.
    destruct (no_output_used op (used_after ops outs1)) eqn:E1;
      destruct (no_output_used op (used_after ops outs2)) eqn:E2.
    + done.
    + split; [set_solver|by constructor].
    + apply no_output_used_false in E1 as (o & Ho & Hu).
      destruct (proj1 (no_output_used_true _ _) E2 o Ho). by apply IHu.
    + split; [set_solver|by constructor].
Qed.

(** ** The pass only takes away *)

Lemma op_count_unfold ops outs :
  op_count (Blk ops outs)
  = list_sum ((fun op => S (list_sum (op_count <$> blocks op))) <$> ops).
Proof. reflexivity. Qed.

Lemma op_count_dce b : op_count (out_block (dce_block b)) <= op_count b.
Proof.
  induction b as [ops outs IH] using Block_nested_ind.
  rewrite dce_block_eq. simpl out_block. rewrite !op_count_unfold.
  induction IH as [|op ops Hop _ IHops]; [done|].
  rewrite fmap_cons, list_sum_cons. cbn [kept].
  destruct (no_output_used op (used_after ops outs)); [lia|].
  rewrite fmap_cons, list_sum_cons.
  assert (list_sum (op_count <$> blocks (process op))
          <= list_sum (op_count <$> blocks op)); [|lia].
  unfold process, with_blocks. cbn [blocks]. clear IHops.
  induction Hop as [|nb bs Hnb _ IHbs]; [done|].
  rewrite !fmap_cons, !list_sum_cons. unfold compose at 1. lia.
Qed.

(** ** The whole program *)

Lemma fold_apply_step prog acc lg :
  fold_left apply_step prog (acc, lg)
  = (acc ++ ((fun f => (f.1, out_block (dce_block f.2))) <$> prog),
     lg ++ concat (out_log ∘ dce_block ∘ snd <$> prog)).
Proof.
  revert acc lg. induction prog as [|f prog IH]; intros acc lg.
  - simpl. by rewrite !app_nil_r.
  - cbn [fold_left]. unfold apply_step at 2. cbn [fst snd].
    rewrite IH, !fmap_cons. cbn [concat]. by rewrite <- !app_assoc.
Qed.

Lemma apply_eq prog :
  apply prog
  = ((fun f => (f.1, out_block (dce_block f.2))) <$> prog,
     concat (out_log ∘ dce_block ∘ snd <$> prog)).
Proof. unfold apply. by rewrite fold_apply_step. Qed.

Lemma dce_block_settled b : settled b.
Proof.
  induction b as [ops outs IH] using Block_nested_ind.
  unfold settled. rewrite dce_block_eq. simpl out_block. simpl out_used.
  rewrite dce_block_eq.
  destruct (settled_ops ops outs IH) as (Hu & Hk & Hr & Hl).
  by rewrite Hu, Hk, Hr, Hl.
Qed.

Lemma count_visits_exact_sweep ops outs :
  Forall (fun op => Forall (fun nb =>
            count_visits (dce_block_traced nb).2
            = op_count (out_block (dce_block nb))
              + length (out_log (dce_block nb)))
            (blocks op)) ops ->
  count_visits (sweep_trace ops outs)
  = op_count (Blk (kept ops outs) outs)
    + length (sweep_log ops outs) + length (removed ops outs).
Proof.
  induction 1 as [|op ops Hop _ IH]; [done|].
  cbn [sweep_trace kept sweep_log removed].
  rewrite count_visits_app. cbn [count_visits]. rewrite IH.
  destruct (no_output_used op (used_after ops outs)).
  - rewrite length_app. simpl. lia.
  - rewrite !op_count_unfold, fmap_cons, list_sum_cons, length_app.
    assert (count_visits (concat (snd ∘ dce_block_traced <$> blocks op))
            = list_sum (op_count <$> blocks (process op))
              + length (nested_log op)) as ->; [|lia].
    unfold process, with_blocks, nested_log. cbn [blocks].
    clear IH. induction Hop as [|nb bs Hnb _ IHbs]; [done|].
    rewrite !fmap_cons. cbn [concat]. rewrite count_visits_app, IHbs.
    rewrite list_sum_cons, length_app. unfold compose.
    rewrite Hnb. lia.
Qed.

Lemma capture_block_reach_k : Reach capture_block "k".
Proof.
  apply (Reach_capture _ _ cond_op "r" branch_body "k").
  - repeat constructor.
  - repeat constructor.
  - apply Reach_output. repeat constructor.
  - repeat constructor.
  - apply (Reach_input _ _
             (Op "add_0" "add" [("x", Single "k"); ("y", Single "one")]
                 ["sum"] []) "sum" "k").
    + repeat constructor.
    + repeat constructor.
    + apply Reach_output. repeat constructor.
    + repeat constructor.
  - apply (bool_decide_unpack _). vm_compute. exact I.
Qed.

(** ** Properties of the pass *)

(** C8. On the empty scope (no operations, no declared outputs) the pass
    removes nothing, logs nothing and returns the empty set. *)
Theorem empty_scope_unchanged :
  _dead_code_elimination_block (Blk [] []) = mkOutcome (Blk [] []) ∅ [].
Proof. reflexivity. Qed.

(** C7. When the sweep of a scope starts, the liveness set holds the
    declared outputs of the scope and nothing else; and visiting an
    operation with a live output adds every variable of every entry of its
    inputs, the elements of tuple and list entries included. *)
Theorem liveness_init_and_inputs :
  (forall rec n outs v, v ∈ used_vars (sweep rec n [] outs) <-> v ∈ outs)
  /\ (forall rec n op st key r v,
        no_output_used op (used_vars st) = false ->
        (key, r) ∈ inputs op -> v ∈ input_vars r ->
        v ∈ used_vars (sweep_step rec n op st)).
Proof.
  split.
  - intros rec n outs v. simpl. apply elem_of_list_to_set.
  - intros rec n op st key r v Hlive Hin Hv.
    rewrite sweep_step_used, Hlive.
    assert (v ∈ op_inputs op) by (apply elem_of_op_inputs; eauto).
    set_solver.
Qed.

Lemma liveness_init_and_inputs_witness :
  "w" ∈ used_vars (sweep_step _dead_code_elimination_block 1 concat_op
                     (sweep_init ["cat"])).
Proof.
  apply (proj2 liveness_init_and_inputs dce_block 1 concat_op
           (sweep_init ["cat"]) "values" (Multi ["u"; "w"]) "w").
  - vm_compute. reflexivity.
  - repeat constructor.
  - repeat constructor.
Defined.

(** C10. The returned set contains every declared output of the scope,
    whether or not an operation of the scope defines it; and the caller
    adds the declared outputs of the nested blocks of a live operation to
    its own liveness set. *)
Theorem returned_set_contains_outputs :
  (forall b v,
      v ∈ block_outputs b -> v ∈ out_used (_dead_code_elimination_block b))
  /\ (forall n op st nb v,
        no_output_used op (used_vars st) = false ->
        nb ∈ blocks op -> v ∈ block_outputs nb ->
        v ∈ used_vars (sweep_step _dead_code_elimination_block n op st)).
Proof.
  assert (Hout : forall b v,
             v ∈ block_outputs b -> v ∈ out_used (dce_block b)).
  { intros b v Hv. rewrite dce_block_used.
    apply used_after_outputs, elem_of_list_to_set, Hv. }
  split; [exact Hout|].
  intros n op st nb v Hlive Hnb Hv.
  rewrite sweep_step_used, Hlive.
  apply elem_of_union_r, elem_of_union_list.
  exists (out_used (dce_block nb)). split; [|by apply Hout].
  apply list_elem_of_fmap. by exists nb.
Qed.

Lemma returned_set_contains_outputs_witness :
  "a" ∈ defined_vars self_contained_block
  /\ "a" ∈ out_used (_dead_code_elimination_block self_contained_block)
  /\ "sum" ∈ used_vars (sweep_step _dead_code_elimination_block 3 cond_op
                          (sweep_init ["r"])).
Proof.
  split; [|split].
  - apply (bool_decide_unpack _). vm_compute. exact I.
  - apply (proj1 returned_set_contains_outputs self_contained_block "a").
    repeat constructor.
  - apply (proj2 returned_set_contains_outputs 3 cond_op (sweep_init ["r"])
             branch_body "sum").
    + vm_compute. reflexivity.
    + repeat constructor.
    + repeat constructor.
Defined.

(** C5. The sweep itself removes nothing: when it ends the operation list
    has its operations in their places (a live one with its nested blocks
    processed).  The removal loop that follows leaves a subsequence of that
    list, so the surviving operations keep their relative order. *)
Theorem removal_after_sweep_preserves_order ops outs :
  let st := sweep _dead_code_elimination_block (length ops) ops outs in
  let after := out_block (_dead_code_elimination_block (Blk ops outs)) in
  Forall2 (fun op' op => op' = op \/ op' = process op) (swept st) ops
  /\ (removal st).1 `sublist_of` tagged (swept st)
  /\ operations after = (removal st).1.*2
  /\ exists ks, ks `sublist_of` ops /\ operations after = process <$> ks.
Proof.
  cbn zeta. split; [apply sweep_swept_shape|]. split; [|split].
  - unfold removal. rewrite fold_remove_step. simpl. apply sublist_filter.
  - rewrite dce_block_unfold. unfold sweep_finish.
    by destruct (removal _).
  - rewrite dce_block_operations. apply kept_sublist.
Qed.

(** C4. An operation none of whose outputs is in the liveness set when it is
    visited is appended to [ops_to_remove] and nothing else happens: the
    liveness set and the log stay as they are and its nested blocks are
    left untouched.  Hence the outcome of the call (block, returned set and
    log) is the same whatever the inputs and the nested blocks of that
    operation are: they contribute nothing to liveness or to the log. *)
Theorem dead_operation_not_inspected :
  (forall rec n op st,
      no_output_used op (used_vars st) = true ->
      sweep_step rec n op st
      = mkSweep (used_vars st)
                (ops_to_remove st ++ [(n - S (length (swept st)), op)])
                (op :: swept st) (log st))
  /\ (forall pre op post outs ins' bs',
        no_output_used op
          (used_vars (sweep _dead_code_elimination_block
                        (length (pre ++ op :: post)) post outs))
        = true ->
        _dead_code_elimination_block
          (Blk (pre ++ Op (name op) (op_type op) ins' (outputs op) bs' :: post)
               outs)
        = _dead_code_elimination_block (Blk (pre ++ op :: post) outs)).
Proof.
  split; [apply sweep_step_dead|].
  intros pre op post outs ins' bs' Hdead. rewrite sweep_used in Hdead.
  rewrite !dce_block_eq.
  destruct (outcome_of_prefix pre
              (Op (name op) (op_type op) ins' (outputs op) bs' :: post)
              (op :: post) outs) as (Hu & Hk & Hl & Hr).
  - simpl.
    change (no_output_used (Op _ _ _ (outputs op) _) ?u)
      with (no_output_used op u).
    by rewrite Hdead.
  - simpl.
    change (no_output_used (Op _ _ _ (outputs op) _) ?u)
      with (no_output_used op u).
    by rewrite Hdead.
  - simpl.
    change (no_output_used (Op _ _ _ (outputs op) _) ?u)
      with (no_output_used op u).
    by rewrite Hdead.
  - simpl.
    change (no_output_used (Op _ _ _ (outputs op) _) ?u)
      with (no_output_used op u).
    rewrite Hdead, !fmap_app. done.
  - by rewrite Hu, Hk, Hl, Hr.
Qed.

Lemma dead_operation_not_inspected_witness :
  _dead_code_elimination_block
    (Blk ([const_op "k"; const_op "p"]
          ++ Op "cond_0" "cond" [] ["r"] [] :: [const_op "out"]) ["out"])
  = _dead_code_elimination_block dead_cond_block
  /\ out_log (_dead_code_elimination_block dead_cond_block)
     = [mkDiag "cond_0" "cond"; mkDiag "p" "const"; mkDiag "k" "const"].
Proof.
  split.
  - apply (proj2 dead_operation_not_inspected
             [const_op "k"; const_op "p"] cond_op [const_op "out"] ["out"]
             [] []).
    vm_compute. reflexivity.
  - vm_compute. reflexivity.
Defined.

(** C6. Running the pass again on the block it has just processed changes
    nothing: the second run returns the same block and the same set, and
    logs no removal, in this block or in any nested one. *)
Theorem dce_block_idempotent b :
  let first := _dead_code_elimination_block b in
  _dead_code_elimination_block (out_block first)
  = mkOutcome (out_block first) (out_used first) [].
Proof.
  cbn zeta. induction b as [ops outs IH] using Block_nested_ind.
  fold (settled (Blk ops outs)). unfold settled.
  rewrite dce_block_eq. simpl out_block. simpl out_used.
  rewrite dce_block_eq.
  destruct (settled_ops ops outs IH) as (Hu & Hk & Hr & Hl).
  by rewrite Hu, Hk, Hr, Hl.
Qed.

(** C1, as the code has it.  The returned set is the set of all variables
    the scope refers to once the pass has run: its declared outputs, the
    inputs of its surviving operations, and what the calls on their nested
    blocks returned.  It therefore contains every free variable of the
    scope, but it is not limited to them. *)
Theorem returned_set_is_consumed_set b :
  let r := _dead_code_elimination_block b in
  out_used r = consumed (out_block r)
  /\ free_vars (out_block r) ⊆ out_used r.
Proof.
  cbn zeta. split; [apply dce_block_consumed|].
  rewrite dce_block_consumed. apply free_vars_consumed.
Qed.

(** C1, as stated, fails: on a well-formed block whose declared output is
    defined by its own operation the returned set contains that variable,
    which is not free; the same happens in the body of a conditional, where
    only the captured [k] is free. *)
Lemma returned_set_not_free_vars :
  well_formed ∅ self_contained_block = true
  /\ "a" ∈ defined_vars self_contained_block
  /\ "a" ∈ out_used (_dead_code_elimination_block self_contained_block)
  /\ out_used (_dead_code_elimination_block self_contained_block)
     ≠ free_vars self_contained_block
  /\ out_used (_dead_code_elimination_block self_contained_block)
     ≠ free_vars
         (out_block (_dead_code_elimination_block self_contained_block))
  /\ well_formed {["k"]} branch_body = true
  /\ free_vars (out_block (_dead_code_elimination_block branch_body))
     = {["k"]}
  /\ out_used (_dead_code_elimination_block branch_body)
     = {["one"; "k"; "sum"]}.
Proof.
  repeat split;
    try (vm_compute; reflexivity);
    apply (bool_decide_unpack _); vm_compute; exact I.
Qed.

(** C2. In a single-assignment scope, an operation none of whose outputs is
    reachable from the declared outputs of the scope is marked for removal,
    and the removal loop takes it out of the operation list: its identity
    is not among those left, and (operation names being unique in a scope)
    neither is its name. *)
Theorem unreachable_operations_removed ops outs i op :
  single_assignment (Blk ops outs) ->
  ops !! i = Some op ->
  (forall o, o ∈ outputs op -> ~ Reach (Blk ops outs) o) ->
  let st := sweep _dead_code_elimination_block (length ops) ops outs in
  let after := out_block (_dead_code_elimination_block (Blk ops outs)) in
  (i, op) ∈ ops_to_remove st
  /\ i ∉ (removal st).1.*1
  /\ operations after = (removal st).1.*2
  /\ (NoDup (name <$> ops) -> name op ∉ name <$> operations after).
Proof.
  intros Hsa Hi Hun. cbn zeta.
  assert (Hun' : forall o, o ∈ outputs op -> ~ Needed (Blk ops outs) o).
  { intros o Ho Hneeded. apply (Hun o Ho).
    apply Needed_Reach; [done|done|].
    eapply top_not_nested; eauto. by eapply list_elem_of_lookup_2. }
  pose proof (unreachable_dead ops outs i op Hi Hun') as Hdead.
  pose proof (sweep_marks_dead (length ops) ops outs i op
                (Nat.le_refl _) Hi Hdead) as Hmark.
  rewrite Nat.sub_diag in Hmark. simpl in Hmark.
  split; [done|]. split; [|split].
  - unfold removal. rewrite fold_remove_step. simpl.
    intros ([j op'] & -> & Hin%list_elem_of_filter)%list_elem_of_fmap.
    destruct Hin as [Hnot _]. apply Hnot.
    apply list_elem_of_fmap. by exists (j, op).
  - rewrite dce_block_unfold. unfold sweep_finish. by destruct (removal _).
  - intros Hnodup. rewrite dce_block_operations. simpl.
    intros (op' & Hname & Hop')%list_elem_of_fmap.
    apply kept_lookup in Hop' as (j & opj & Hj & -> & Hlive).
    assert (i = j) as <-.
    { eapply NoDup_lookup; [exact Hnodup| |].
      - by rewrite list_lookup_fmap, Hi.
      - rewrite list_lookup_fmap, Hj. simpl. by rewrite Hname. }
    rewrite Hi in Hj. injection Hj as <-. congruence.
Qed.

Lemma unreachable_operations_removed_witness :
  operations docstring_block !! 4
  = Some (Op "matmul_0" "matmul"
             [("x", Single "x"); ("y", Single "const_2");
              ("transpose_x", Single "tx_0"); ("transpose_y", Single "ty_0")]
             ["matmul_0"] [])
  /\ "matmul_0"
     ∉ name <$> operations
                  (out_block (_dead_code_elimination_block docstring_block)).
Proof.
  split; [reflexivity|].
  refine (proj2 (proj2 (proj2
            (unreachable_operations_removed (operations docstring_block)
               ["linear_0"] 4 _ _ eq_refl _))) _).
  - apply (bool_decide_unpack _). vm_compute. exact I.
  - intros o Ho Hreach. apply Reach_Needed, Needed_consumed in Hreach.
    apply list_elem_of_singleton in Ho. subst o.
    revert Hreach. apply (bool_decide_unpack _). vm_compute. exact I.
  - apply (bool_decide_unpack _). vm_compute. exact I.
Defined.

(** C3. In a single-assignment scope, every operation the pass leaves has
    an output that is reachable, in the scope as the pass leaves it, from
    the declared outputs: directly, as an input of a surviving operation,
    or as a capture of a nested block of a surviving operation. *)
Theorem surviving_operations_reachable b op :
  single_assignment b ->
  let after := out_block (_dead_code_elimination_block b) in
  op ∈ operations after ->
  exists o, o ∈ outputs op /\ Reach after o.
Proof.
  cbn zeta. intros Hsa Hop. apply single_assignment_dce in Hsa.
  assert (exists o, o ∈ outputs op /\ Needed (out_block (dce_block b)) o)
    as (o & Ho & Hneeded).
  { destruct b as [ops outs]. rewrite dce_block_eq in *. simpl in *.
    assert (Hnested : Forall (fun op => Forall (fun nb =>
              forall v, v ∈ out_used (dce_block nb) ->
                        Needed (out_block (dce_block nb)) v)
              (blocks op)) ops).
    { apply Forall_forall. intros a _. apply Forall_forall. intros nb _ v.
      apply dce_block_needed_post. }
    by apply (used_after_needed_post ops outs Hnested ops []). }
  exists o. split; [done|]. apply Needed_Reach; [done|done|].
  destruct (out_block (dce_block b)) as [ops' outs'].
  by eapply top_not_nested.
Qed.

Lemma surviving_operations_reachable_witness :
  exists o, o ∈ outputs (const_op "k")
    /\ Reach (out_block (_dead_code_elimination_block capture_block)) o.
Proof.
  apply (surviving_operations_reachable capture_block (const_op "k")).
  - apply (bool_decide_unpack _). vm_compute. exact I.
  - vm_compute. repeat constructor.
Defined.

(** C9. The pass terminates on every block and on every program.  A call
    on a block runs to its return; its loop visits each operation of the
    block exactly once, last to first; every nested call made on the way
    has returned before the call itself returns; and the total number of
    visits, nested calls included, is at most the number of operations in
    the tree of the block.  The same bound holds for a whole program. *)
Theorem pass_terminates :
  (forall b, exists body,
      _dead_code_elimination_block_traced b
      = (_dead_code_elimination_block b, EvCall :: body ++ [EvReturn])
      /\ visits_at 1 body = rev (name <$> operations b)
      /\ depth_after 0 body = Some 0
      /\ count_visits body <= op_count b)
  /\ (forall prog, exists tr,
        apply_traced prog = (apply prog, tr)
        /\ depth_after 0 tr = Some 0
        /\ count_visits tr <= program_op_count prog).
Proof.
  split.
  - intros b. exists (sweep_trace (operations b) (block_outputs b)).
    split; [apply dce_block_traced_eq|]. split; [|split].
    + rewrite <- (app_nil_r (sweep_trace _ _)), own_visits_sweep.
      by rewrite app_nil_r.
    + rewrite <- (app_nil_r (sweep_trace _ _)). by rewrite depth_sweep.
    + pose proof (count_visits_block b) as H.
      rewrite dce_block_traced_eq in H. cbn [snd count_visits] in H.
      rewrite count_visits_app in H. lia.
  - intros prog.
    exists (concat (snd ∘ dce_block_traced ∘ snd <$> prog)).
    split; [|split].
    + unfold apply_traced, apply. by rewrite apply_traced_eq.
    + rewrite <- (app_nil_r (concat _)).
      assert (Ht : transparent
                     (concat (snd ∘ dce_block_traced ∘ snd <$> prog))).
      { apply transparent_concat, Forall_fmap, Forall_forall.
        intros f _. apply transparent_block. }
      by destruct (Ht 0 []) as [-> _].
    + apply count_visits_program.
Qed.

(** ** Further properties of the pass *)

(** X1. On a well-formed block the pass never removes an operation one of
    whose outputs is reachable from the declared outputs: such an operation
    is not marked for removal and is in the block the pass leaves. *)
Theorem needed_operations_kept env ops outs i op o :
  well_formed env (Blk ops outs) = true ->
  ops !! i = Some op -> o ∈ outputs op -> Reach (Blk ops outs) o ->
  let st := sweep _dead_code_elimination_block (length ops) ops outs in
  let after := out_block (_dead_code_elimination_block (Blk ops outs)) in
  i ∉ (ops_to_remove st).*1 /\ process op ∈ operations after.
Proof.
  intros Hwf Hi Ho Hreach. cbn zeta.
  apply well_formed_well_scoped in Hwf.
  pose proof (needed_used _ _ (Reach_Needed _ _ Hreach) env Hwf) as Hu.
  rewrite dce_block_used in Hu. simpl in Hu.
  rewrite <- (take_drop_middle ops i op Hi) in Hu, Hwf.
  apply (output_used_late env (take i ops) op (drop (S i) ops) outs o) in Hu;
    [|done|done].
  assert (Hlive : no_output_used op (used_after (drop (S i) ops) outs)
                  = false).
  { apply no_output_used_false. eauto. }
  split; [by apply (live_not_marked ops outs i op)|].
  rewrite dce_block_operations. simpl.
  rewrite <- (take_drop_middle ops i op Hi) at 1. by apply kept_live.
Qed.

Lemma needed_operations_kept_witness :
  const_op "k" ∈ operations
                   (out_block (_dead_code_elimination_block capture_block)).
Proof.
  refine (proj2 (needed_operations_kept ∅ (operations capture_block) ["r"]
                   0 (const_op "k") "k" _ eq_refl _ _)).
  - vm_compute. reflexivity.
  - repeat constructor.
  - exact capture_block_reach_k.
Defined.

(** X2. On a well-formed block the returned set is exactly the set of
    variables the live part of the block refers to; for a variable visible
    from the enclosing scope this means: it is returned exactly when it is
    reachable from the declared outputs of the block. *)
Theorem returned_set_is_needed_set env b v :
  well_formed env b = true ->
  (v ∈ out_used (_dead_code_elimination_block b) <-> Needed b v)
  /\ (v ∈ env ->
      (v ∈ out_used (_dead_code_elimination_block b) <-> Reach b v)).
Proof.
  intros Hwf. apply well_formed_well_scoped in Hwf.
  assert (Hiff : v ∈ out_used (dce_block b) <-> Needed b v).
  { split; [apply dce_block_needed|].
    intros H. by apply (needed_used b v H env). }
  split; [done|]. intros Hv. rewrite Hiff.
  split; [|apply Reach_Needed].
  destruct Hwf as (_ & Hsa & Henv). intros H.
  apply Needed_Reach; [done|done|].
  intros Hin%nested_defs_all_defs.
  rewrite Forall_forall in Henv. by apply (Henv v).
Qed.

Lemma returned_set_is_needed_set_witness :
  "k" ∈ out_used (_dead_code_elimination_block branch_body)
  <-> Reach branch_body "k".
Proof.
  refine (proj2 (returned_set_is_needed_set {["k"]} branch_body "k" _) _).
  - vm_compute. reflexivity.
  - apply (bool_decide_unpack _). vm_compute. exact I.
Defined.

(** X3. The pass keeps blocks well formed: if the block it is given is
    (single assignment, lexical visibility in definition order, unique
    operation names), so is the block it leaves, in the same
    environment. *)
Theorem well_formed_preserved env b :
  well_formed env b = true ->
  well_formed env (out_block (_dead_code_elimination_block b)) = true.
Proof.
  rewrite !well_formed_iff. intros [Hws Hnames]. split.
  - by apply well_scoped_dce.
  - by apply names_unique_dce.
Qed.

Lemma well_formed_preserved_witness :
  well_formed {["x"]}
    (out_block (_dead_code_elimination_block docstring_block)) = true.
Proof.
  apply (well_formed_preserved {["x"]} docstring_block).
  vm_compute. reflexivity.
Defined.

(** X4. The returned set is all the block needs from outside: a block that
    is well scoped in an environment is, once processed, well scoped in the
    part of that environment that the call returned. *)
Theorem returned_set_suffices env b :
  scoped env b = true ->
  scoped (env ∩ out_used (_dead_code_elimination_block b))
         (out_block (_dead_code_elimination_block b)) = true.
Proof.
  intros Hs. apply (scoped_dce b env); [done|]. set_solver.
Qed.

Lemma returned_set_suffices_witness :
  scoped ({["k"; "p"]} ∩ out_used (_dead_code_elimination_block branch_body))
         (out_block (_dead_code_elimination_block branch_body)) = true.
Proof.
  apply (returned_set_suffices {["k"; "p"]} branch_body).
  vm_compute. reflexivity.
Defined.

(** X5. Whatever the block, the producer of a declared output is never
    removed. *)
Theorem output_producer_kept ops outs i op o :
  ops !! i = Some op -> o ∈ outputs op -> o ∈ outs ->
  let st := sweep _dead_code_elimination_block (length ops) ops outs in
  let after := out_block (_dead_code_elimination_block (Blk ops outs)) in
  i ∉ (ops_to_remove st).*1 /\ process op ∈ operations after.
Proof.
  intros Hi Ho Hout. cbn zeta.
  assert (Hlive : no_output_used op (used_after (drop (S i) ops) outs)
                  = false).
  { apply no_output_used_false. exists o. split; [done|].
    by apply used_after_outputs, elem_of_list_to_set. }
  split; [by apply (live_not_marked ops outs i op)|].
  rewrite dce_block_operations. simpl.
  rewrite <- (take_drop_middle ops i op Hi) at 1. by apply kept_live.
Qed.

Lemma output_producer_kept_witness :
  const_op "a" ∈ operations
                   (out_block (_dead_code_elimination_block effect_block)).
Proof.
  refine (proj2 (output_producer_kept (operations effect_block) ["a"]
                   0 (const_op "a") "a" eq_refl _ _)).
  - repeat constructor.
  - repeat constructor.
Defined.



(** X7. A block that declares no outputs is emptied: every operation is
    removed, one record is logged per operation, last operation first, and
    the empty set is returned. *)
Theorem no_declared_outputs_removes_all ops :
  _dead_code_elimination_block (Blk ops [])
  = mkOutcome (Blk [] []) ∅ (removing <$> rev ops).
Proof.
  rewrite dce_block_eq.
  destruct (sweep_no_outputs ops) as (Hu & Hk & Hl & Hr).
  by rewrite Hu, Hk, Hl, Hr.
Qed.

(** X8. Every operation of the block is either kept or logged, never both
    and never twice: the operations split into the kept ones, which stay in
    order, and the removed ones; the log of the call holds the records of
    the nested calls on the kept operations, last kept operation first,
    followed by one record per removed operation, last removed first. *)
Theorem every_operation_kept_or_logged ops outs :
  let r := _dead_code_elimination_block (Blk ops outs) in
  exists ks ds,
    ops ≡ₚ ks ++ ds
    /\ ks `sublist_of` ops /\ ds `sublist_of` ops
    /\ operations (out_block r) = process <$> ks
    /\ out_log r = concat (nested_log <$> rev ks) ++ (removing <$> rev ds).
Proof.
  cbn zeta. rewrite dce_block_eq. simpl.
  destruct (sweep_partition ops outs)
    as (ks & ds & Hp & Hks & Hds & Hk & Hr & Hl).
  exists ks, ds. by rewrite Hk, Hr, Hl.
Qed.

(** X9. On a single-assignment block the result is free of dead code at
    every depth: each operation left, in the block or in any nested block
    of an operation left, has an output reachable from the declared outputs
    of its own block. *)
Theorem result_live_at_every_depth b :
  single_assignment b ->
  DeepLive (out_block (_dead_code_elimination_block b)).
Proof.
  induction b as [ops outs IH] using Block_nested_ind. intros Hsa.
  pose proof (fun op => kept_op_reach (Blk ops outs) op Hsa) as Htop.
  rewrite dce_block_eq in *. simpl in *.
  constructor. intros op' Hop'. split; [by apply Htop|].
  intros nb' Hnb'.
  apply kept_lookup in Hop' as (j & op & Hj & -> & _).
  unfold process, with_blocks in Hnb'. cbn [blocks] in Hnb'.
  apply list_elem_of_fmap in Hnb' as (nb & -> & Hnb).
  assert (Hop : op ∈ ops) by (by eapply list_elem_of_lookup_2).
  rewrite Forall_forall in IH. specialize (IH op Hop).
  rewrite Forall_forall in IH. apply (IH nb Hnb).
  destruct (all_defs_of_nested ops outs op nb Hop Hnb) as [_ Hsub].
  unfold single_assignment in *. by eapply sublist_NoDup.
Qed.

Lemma result_live_at_every_depth_witness :
  DeepLive (out_block (_dead_code_elimination_block capture_block)).
Proof.
  apply (result_live_at_every_depth capture_block).
  apply (bool_decide_unpack _). vm_compute. exact I.
Defined.

(** X10. The pass only takes away: the declared outputs are untouched, the
    variables defined in the tree of the result are a subsequence of those
    defined in the tree of the input, and the number of operations does
    not grow. *)
Theorem pass_only_removes b :
  let after := out_block (_dead_code_elimination_block b) in
  block_outputs after = block_outputs b
  /\ all_defs after `sublist_of` all_defs b
  /\ op_count after <= op_count b.
Proof.
  cbn zeta. split; [apply dce_block_outputs|].
  split; [apply all_defs_dce_sublist|apply op_count_dce].
Qed.

(** X11. The returned set holds only variables that the given block
    mentions; if the block is well scoped in an environment, every
    returned variable is in the environment or defined in the block. *)
Theorem returned_set_bounded b :
  out_used (_dead_code_elimination_block b) ⊆ consumed b
  /\ forall env, scoped env b = true ->
       out_used (_dead_code_elimination_block b)
       ⊆ env ∪ list_to_set (all_defs b).
Proof.
  split; [apply dce_block_used_consumed|].
  intros env Hs. etrans; [apply dce_block_used_consumed|].
  by apply scoped_consumed.
Qed.

Lemma returned_set_bounded_witness :
  out_used (_dead_code_elimination_block branch_body)
  ⊆ {["k"]} ∪ list_to_set (all_defs branch_body).
Proof.
  apply (proj2 (returned_set_bounded branch_body) {["k"]}).
  vm_compute. reflexivity.
Defined.

(** X12. Declaring more outputs never removes more: with a larger list of
    declared outputs the returned set is larger and the operations left
    with the smaller list are a subsequence of those left with the
    larger. *)
Theorem more_outputs_more_survivors ops outs1 outs2 :
  (forall v, v ∈ outs1 -> v ∈ outs2) ->
  let r1 := _dead_code_elimination_block (Blk ops outs1) in
  let r2 := _dead_code_elimination_block (Blk ops outs2) in
  out_used r1 ⊆ out_used r2
  /\ operations (out_block r1) `sublist_of` operations (out_block r2).
Proof.
  intros Hsub. cbn zeta. rewrite !dce_block_eq. simpl.
  by apply used_after_mono.
Qed.

Lemma more_outputs_more_survivors_witness :
  operations (out_block (_dead_code_elimination_block docstring_block))
  `sublist_of`
  operations
    (out_block
       (_dead_code_elimination_block
          (Blk (operations docstring_block) ["linear_0"; "matmul_0"]))).
Proof.
  refine (proj2 (more_outputs_more_survivors (operations docstring_block)
                   ["linear_0"] ["linear_0"; "matmul_0"] _)).
  intros v Hv. apply elem_of_cons. by left; apply list_elem_of_singleton.
Defined.


(** X14. Applying the pass to a program a second time changes no function
    and logs nothing. *)
Theorem apply_idempotent prog :
  apply (apply prog).1 = ((apply prog).1, []).
Proof.
  rewrite !apply_eq. cbn [fst].
  induction prog as [|f prog IH]; [done|].
  rewrite !fmap_cons. cbn [concat fst snd].
  injection IH as IH1 IH2.
  pose proof (dce_block_settled f.2) as Hs. unfold settled in Hs.
  rewrite IH1, IH2, app_nil_r. unfold compose. cbn [snd].
  by rewrite Hs.
Qed.

(** X15. The work of a call is exactly the operations it leaves, at every
    depth, plus the removals it logs: the number of loop iterations,
    nested calls included, is the number of operations in the tree of the
    result plus the number of records logged.  Nothing inside a removed
    operation is visited. *)
Theorem visits_are_survivors_and_removals b :
  count_visits (_dead_code_elimination_block_traced b).2
  = op_count (out_block (_dead_code_elimination_block b))
    + length (out_log (_dead_code_elimination_block b)).
Proof.
  induction b as [ops outs IH] using Block_nested_ind.
  rewrite dce_block_traced_eq, dce_block_eq.
  cbn [snd count_visits operations block_outputs out_block out_log].
  rewrite count_visits_app, (count_visits_exact_sweep ops outs IH).
  rewrite length_app, length_fmap. simpl. lia.
Qed.
